(** * Phonical: the playback pipeline of [main.go]

    A shallow embedding of the Go program: the static letter table, the
    key-event dispatch of [main], the bounded [playQueue] channel with its
    non-blocking send, the memoising [loadSound], the consumer goroutine
    [soundPlayer]/[playSound] and the speaker goroutine it hands clips to.

    Go values are modelled as follows.
    - [rune], [int], [uint16]: [Z].
    - [string]: [string]; the one string that is indexed by byte
      ([strings.ToLower(string(char))[0]]) is modelled as its UTF-8 bytes.
    - [map[rune]string], [map[string]*beep.Buffer]: [gmap].
    - [chan string] with a buffer of 100: the list of buffered items,
      oldest first.
    - goroutines: a schedule of atomic actions over one shared [State].
    - what lives outside the repository (the embedded file system, the
      beep decoders, the speaker, the Unicode case tables) is gathered in
      the record [Env]. *)

From stdpp Require Import gmap strings list.
From Stdlib Require Import ZArith Ascii.

Local Open Scope string_scope.
Local Open Scope list_scope.
Local Open Scope Z_scope.

(** ** Go runes and the case mapping of [main] *)

Definition rune (c : ascii) : Z := Z.of_N (N_of_ascii c).

Definition runeToAscii (r : Z) : ascii := ascii_of_N (Z.to_N r).

Definition MaxRune : Z := 0x10FFFF.
Definition RuneError : Z := 0xFFFD.
Definition MaxASCII : Z := 0x7F.

Definition isUpperLatin (r : Z) : bool := (65 <=? r) && (r <=? 90).
Definition isLowerLatin (r : Z) : bool := (97 <=? r) && (r <=? 122).
Definition isLatinLetter (r : Z) : bool := isUpperLatin r || isLowerLatin r.

(** A rune that is not a Unicode scalar value (negative, above [MaxRune] or
    a surrogate) is written to a string as U+FFFD. *)
Definition validRune (r : Z) : Z :=
  if (r <? 0) || (MaxRune <? r) || ((0xD800 <=? r) && (r <=? 0xDFFF))
  then RuneError else r.

(** [utf8.AppendRune]: the bytes of a valid rune. *)
Definition utf8_encode (r : Z) : list Z :=
  if r <=? 0x7F then [r]
  else if r <=? 0x7FF then
    [Z.lor 0xC0 (Z.shiftr r 6); Z.lor 0x80 (Z.land r 0x3F)]
  else if r <=? 0xFFFF then
    [Z.lor 0xE0 (Z.shiftr r 12);
     Z.lor 0x80 (Z.land (Z.shiftr r 6) 0x3F);
     Z.lor 0x80 (Z.land r 0x3F)]
  else
    [Z.lor 0xF0 (Z.shiftr r 18);
     Z.lor 0x80 (Z.land (Z.shiftr r 12) 0x3F);
     Z.lor 0x80 (Z.land (Z.shiftr r 6) 0x3F);
     Z.lor 0x80 (Z.land r 0x3F)].

(** ** Sound data *)

(** [beep.Format]. *)
Record Format := mkFormat {
  SampleRate : Z;
  NumChannels : Z;
  Precision : Z
}.

(** One stereo frame of PCM data. *)
Definition Sample : Type := Z * Z.

(** [beep.Buffer]: a format and the frames appended to it. *)
Record Buffer := mkBuffer {
  buf_f : Format;
  buf_data : list Sample
}.

Definition error : Type := string.

Inductive result (A : Type) : Type :=
| Ok (a : A)
| Err (e : error).
Arguments Ok {A} a.
Arguments Err {A} e.

Definition File : Type := list Z.

(** ** The environment of the program

    - [caseRangesLower]: [unicode.ToLower] above [MaxASCII] (the
      [unicode.CaseRanges] table); it yields a rune, never a negative value.
    - [soundFiles_Open]: [soundFiles.Open] on the embedded, read-only
      [sounds/] directory.
    - [mp3_Decode], [wav_Decode]: the beep decoders, giving the format found
      in the file and the frames the streamer yields.
    - [speaker_Init]: [speaker.Init sampleRate bufferSize]. *)
Record Env := mkEnv {
  caseRangesLower : Z -> N;
  soundFiles_Open : string -> result File;
  mp3_Decode : File -> result (Format * list Sample);
  wav_Decode : File -> result (Format * list Sample);
  speaker_Init : Z -> Z -> result unit
}.

(** [unicode.ToLower]. *)
Definition unicode_ToLower (E : Env) (r : Z) : Z :=
  if r <=? MaxASCII then
    (if isUpperLatin r then r + 32 else r)
  else Z.of_N (caseRangesLower E r).

(** [strings.ToLower(string(char))]: the string holds the single rune
    [validRune char], which is mapped through [unicode.ToLower] and written
    back as UTF-8. *)
Definition strings_ToLower_rune (E : Env) (char : Z) : list Z :=
  utf8_encode (validRune (unicode_ToLower E (validRune char))).

(** [rune(strings.ToLower(string(char))[0])], main.go line 242: the first
    BYTE of the lower-cased string. *)
Definition lowerKeychar (E : Env) (char : Z) : Z :=
  hd 0 (strings_ToLower_rune E char).

(** ** The letter table, main.go lines 25-52 *)

Definition phonicsEntries : list (Z * string) :=
  [ (rune "a", "a.wav"); (rune "b", "b.wav"); (rune "c", "c.wav");
    (rune "d", "d.wav"); (rune "e", "e.wav"); (rune "f", "f.wav");
    (rune "g", "g.wav"); (rune "h", "h.wav"); (rune "i", "i.wav");
    (rune "j", "j.wav"); (rune "k", "k.wav"); (rune "l", "l.wav");
    (rune "m", "m.wav"); (rune "n", "n.wav"); (rune "o", "o.wav");
    (rune "p", "p.wav"); (rune "q", "q.wav"); (rune "r", "r.wav");
    (rune "s", "s.wav"); (rune "t", "t.wav"); (rune "u", "u.wav");
    (rune "v", "v.wav"); (rune "w", "w.wav"); (rune "x", "x.wav");
    (rune "y", "y.wav"); (rune "z", "z.wav") ]%string.

Definition phonicsMap : gmap Z string := list_to_map phonicsEntries.

(** The identifiers of the table, in table order. *)
Definition phonicsFiles : list string := phonicsEntries.*2.

(** The file name the table gives a lower-case letter. *)
Definition letterFile (r : Z) : string :=
  String (runeToAscii r) ".wav".

(** ** The shared state and what the program does to the outside *)

(** The messages of [fmt.Print*], [log.Print*] and [log.Fatal]. *)
Inductive LogMsg : Type :=
| LogKeyPressed (char : Z) (soundFile : string)
| LogQueueFull
| LogLoadFailed (soundPath : string) (err : error)
| LogSpeakerInitFailed (err : error)
| LogPreloading
| LogPreloadFailed (soundFile : string) (err : error)
| LogPreloaded (n : nat)
| LogHookEvent (kind rawcode keychar keycode : Z)
| LogNonCharacter (rawcode : Z)
| LogHelp
| LogBanner
| LogListening
| LogFatal (err : error)
| LogExiting.

(** The observable actions of the program, in the order they happen. *)
Inductive Event : Type :=
| EvLog (m : LogMsg)
| EvSend (soundFile : string) (accepted : bool)
| EvRecv (soundFile : string)
| EvOpen (name : string)
| EvDecode (soundPath : string)
| EvSpeakerInit (sampleRate bufferSize : Z)
| EvPlay (soundPath : string) (buffer : Buffer)
| EvFrame (clips : list string)
| EvDone (soundPath : string).

(** What [speaker.Play] adds to the speaker's mixer in [playSound]:
    [beep.Seq(streamer, beep.Callback(func() { done <- true }))]. *)
Record Voice := mkVoice {
  v_path : string;
  v_left : list Sample;
  v_done : nat
}.

(** Where the goroutine of [soundPlayer] stands: at the receive of
    [range playQueue], or inside [playSound] at [<-done] on the channel it
    made. *)
Inductive PlayerState : Type :=
| AtRange
| AwaitDone (done : nat).

Record State := mkState {
  verbose : bool;
  speakerInitialized : bool;
  playQueue : list string;
  soundCache : gmap string Buffer;
  mixer : list Voice;
  player : PlayerState;
  nextDone : nat;
  exited : bool;
  trace : list Event
}.

Definition emit (ev : Event) (st : State) : State :=
  mkState (verbose st) (speakerInitialized st) (playQueue st) (soundCache st)
          (mixer st) (player st) (nextDone st) (exited st) (trace st ++ [ev]).

Definition set_verbose (b : bool) (st : State) : State :=
  mkState b (speakerInitialized st) (playQueue st) (soundCache st)
          (mixer st) (player st) (nextDone st) (exited st) (trace st).

Definition set_speakerInitialized (b : bool) (st : State) : State :=
  mkState (verbose st) b (playQueue st) (soundCache st)
          (mixer st) (player st) (nextDone st) (exited st) (trace st).

Definition set_playQueue (q : list string) (st : State) : State :=
  mkState (verbose st) (speakerInitialized st) q (soundCache st)
          (mixer st) (player st) (nextDone st) (exited st) (trace st).

Definition set_soundCache (c : gmap string Buffer) (st : State) : State :=
  mkState (verbose st) (speakerInitialized st) (playQueue st) c
          (mixer st) (player st) (nextDone st) (exited st) (trace st).

Definition set_speaker (m : list Voice) (p : PlayerState) (n : nat)
    (st : State) : State :=
  mkState (verbose st) (speakerInitialized st) (playQueue st) (soundCache st)
          m p n (exited st) (trace st).

Definition set_exited (b : bool) (st : State) : State :=
  mkState (verbose st) (speakerInitialized st) (playQueue st) (soundCache st)
          (mixer st) (player st) (nextDone st) b (trace st).

(** [if verbose { print }]. *)
Definition logv (m : LogMsg) (st : State) : State :=
  if verbose st then emit (EvLog m) st else st.

(** The state of a process whose goroutines are idle: nothing handed to the
    speaker, the consumer at its receive, nothing done yet. *)
Definition idleState (v si : bool) (q : list string)
    (c : gmap string Buffer) : State :=
  mkState v si q c [] AtRange 0%nat false [].

(** ** The buffered channel [playQueue], main.go line 56 *)

Definition playQueue_cap : nat := 100.

(** [select { case ch <- x: default: }]: the send goes through when the
    buffer has room, and is given up otherwise. *)
Definition chan_trySend {A : Type} (cap : nat) (q : list A) (x : A)
    : list A * bool :=
  if (length q <? cap)%nat then (q ++ [x], true) else (q, false).

(** A receive that finds an item; on an empty channel the receiver waits. *)
Definition chan_recv {A : Type} (q : list A) : option (A * list A) :=
  match q with
  | [] => None
  | x :: q' => Some (x, q')
  end.

(** ** [initSpeaker], main.go lines 62-81 *)

Definition canonicalFormat : Format := mkFormat 44100 2 2.

(** [SampleRate.N(d)] for a duration in nanoseconds. *)
Definition SampleRate_N (sr d : Z) : Z := d * sr / 1000000000.

Definition initSpeaker (E : Env) (st : State) : result unit * State :=
  if speakerInitialized st then (Ok tt, st)
  else
    let format := canonicalFormat in
    let bufferSize := SampleRate_N (SampleRate format) (1000000000 / 60) in
    let st := emit (EvSpeakerInit (SampleRate format) bufferSize) st in
    match speaker_Init E (SampleRate format) bufferSize with
    | Err err => (Err ("failed to initialize speaker: " +:+ err), st)
    | Ok _ => (Ok tt, set_speakerInitialized true st)
    end.

(** ** [loadSound], main.go lines 83-121 *)

(** [strings.HasSuffix]. *)
Definition HasSuffix (s suffix : string) : bool :=
  let n := String.length s in
  let k := String.length suffix in
  (k <=? n)%nat && String.eqb (String.substring (n - k)%nat k s) suffix.

Definition loadSound (E : Env) (soundPath : string) (st : State)
    : result (Buffer * Format) * State :=
  match soundCache st !! soundPath with
  | Some buffer => (Ok (buffer, mkFormat 44100 2 2), st)
  | None =>
      let st := emit (EvOpen ("sounds/" +:+ soundPath)) st in
      match soundFiles_Open E ("sounds/" +:+ soundPath) with
      | Err err => (Err err, st)
      | Ok file =>
          let decoded :=
            if HasSuffix soundPath ".mp3" then Some (mp3_Decode E file)
            else if HasSuffix soundPath ".wav" then Some (wav_Decode E file)
            else None in
          match decoded with
          | None => (Err ("unsupported format: " +:+ soundPath), st)
          | Some d =>
              let st := emit (EvDecode soundPath) st in
              match d with
              | Err err => (Err err, st)
              | Ok (format, frames) =>
                  let buffer := mkBuffer format frames in
                  (Ok (buffer, format),
                   set_soundCache (<[soundPath := buffer]> (soundCache st)) st)
              end
          end
      end
  end.

(** ** [playSound], main.go lines 123-147

    The function up to its last line: after [speaker.Play] the goroutine
    waits at [<-done], which is the state [AwaitDone]; the speaker ends
    that wait (see [speakerUpdate]). *)
Definition playSound (E : Env) (soundPath : string) (st : State) : State :=
  let '(r, st) := loadSound E soundPath st in
  match r with
  | Err err => logv (LogLoadFailed soundPath err) st
  | Ok (buffer, _) =>
      let '(ri, st) :=
        if speakerInitialized st then (Ok tt, st) else initSpeaker E st in
      match ri with
      | Err err => logv (LogSpeakerInitFailed err) st
      | Ok _ =>
          let done := nextDone st in
          let voice := mkVoice soundPath (buf_data buffer) done in
          emit (EvPlay soundPath buffer)
               (set_speaker (mixer st ++ [voice]) (AwaitDone done) (S done) st)
      end
  end.

(** ** [soundPlayer], main.go lines 149-153

    One turn of [for soundFile := range playQueue]: the goroutine takes an
    item when it stands at the receive and the channel has one. *)
Definition soundPlayer (E : Env) (st : State) : State :=
  match player st with
  | AwaitDone _ => st
  | AtRange =>
      match chan_recv (playQueue st) with
      | None => st
      | Some (soundFile, q) =>
          playSound E soundFile (emit (EvRecv soundFile) (set_playQueue q st))
      end
  end.

(** ** [handleKeyPress], main.go lines 155-169 *)
Definition handleKeyPress (char : Z) (st : State) : State :=
  match phonicsMap !! char with
  | Some soundFile =>
      let st := logv (LogKeyPressed char soundFile) st in
      let '(q, accepted) :=
        chan_trySend playQueue_cap (playQueue st) soundFile in
      let st := emit (EvSend soundFile accepted) (set_playQueue q st) in
      if accepted then st else logv LogQueueFull st
  | None => st
  end.

(** ** [preloadSounds], main.go lines 171-186

    [order] is the order in which [range phonicsMap] yields the values of
    the table; Go leaves it unspecified. *)
Definition preloadOne (E : Env) (st : State) (soundFile : string) : State :=
  let '(r, st) := loadSound E soundFile st in
  match r with
  | Err err => logv (LogPreloadFailed soundFile err) st
  | Ok _ => st
  end.

Definition preloadSounds (E : Env) (order : list string) (st : State)
    : State :=
  let st := logv LogPreloading st in
  let st := foldl (preloadOne E) st order in
  logv (LogPreloaded (size (soundCache st))) st.

(** ** The speaker goroutine *)

(** Modelled from the spec: the speaker belongs to the beep library, which
    is not part of the repository. The spec has the device stream a clip
    handed to it to completion and signal the end of each clip by a done
    callback (4.4, 9), and has clips mix only if two are handed to it at
    once (1, 4.4). One update of the speaker: the mixer plays every voice it
    holds at the same time, an update taking one frame from each and writing
    their sum to the device ([EvFrame] names the clips in it). A voice whose
    streamer is drained runs its callback, [done <- true] of [playSound]: a
    send on an unbuffered channel, which goes through only while
    [playSound] waits at [<-done] on that very channel, and holds the
    speaker up otherwise. *)
Definition isDrained (v : Voice) : bool :=
  match v_left v with
  | [] => true
  | _ :: _ => false
  end.

Fixpoint firstDrained (m : list Voice) : option (Voice * list Voice) :=
  match m with
  | [] => None
  | v :: m' =>
      if isDrained v then Some (v, m')
      else match firstDrained m' with
           | None => None
           | Some (d, rest) => Some (d, v :: rest)
           end
  end.

Definition advance (v : Voice) : Voice :=
  mkVoice (v_path v) (tl (v_left v)) (v_done v).

Definition speakerUpdate (st : State) : State :=
  match firstDrained (mixer st) with
  | Some (v, rest) =>
      match player st with
      | AwaitDone done =>
          if Nat.eqb done (v_done v)
          then emit (EvDone (v_path v))
                    (set_speaker rest AtRange (nextDone st) st)
          else st
      | AtRange => st
      end
  | None =>
      match mixer st with
      | [] => st
      | m => emit (EvFrame (v_path <$> m))
                  (set_speaker (advance <$> m) (player st) (nextDone st) st)
      end
  end.

(** ** The event loop of [main], main.go lines 230-252 *)

(** [hook.Event], the fields the program reads. *)
Record HookEvent := mkHookEvent {
  Kind : Z;
  Rawcode : Z;
  Keychar : Z;
  Keycode : Z
}.

(** [case ev := <-evChan]. *)
Definition handleEvent (E : Env) (ev : HookEvent) (st : State) : State :=
  let st :=
    logv (LogHookEvent (Kind ev) (Rawcode ev) (Keychar ev) (Keycode ev)) st in
  if Kind ev =? 3 then
    if negb (Keychar ev =? 0) then
      let char := Keychar ev in
      let char := lowerKeychar E char in
      handleKeyPress char st
    else logv (LogNonCharacter (Rawcode ev)) st
  else st.

(** The sound identifier a key character leads to, if any: the lower-casing
    of the event loop followed by the table lookup of [handleKeyPress]. *)
Definition dispatch (E : Env) (keychar : Z) : option string :=
  if keychar =? 0 then None else phonicsMap !! lowerKeychar E keychar.

(** What the goroutines of the running process can do next. *)
Inductive Action : Type :=
| AHook (ev : HookEvent)
| ASignal
| APlayer
| ASpeaker.

Definition step (E : Env) (a : Action) (st : State) : State :=
  if exited st then st
  else match a with
       | AHook ev => handleEvent E ev st
       | ASignal => set_exited true (emit (EvLog LogExiting) st)
       | APlayer => soundPlayer E st
       | ASpeaker => speakerUpdate st
       end.

Definition run (E : Env) (sched : list Action) (st : State) : State :=
  foldl (fun st a => step E a st) st sched.

(** ** [main], main.go lines 188-253 *)

Definition isVerboseFlag (args : list string) : bool :=
  match args with
  | _ :: a :: _ => String.eqb a "-v" || String.eqb a "--verbose"
  | _ => false
  end.

Definition isHelpFlag (args : list string) : bool :=
  match args with
  | _ :: a :: _ => String.eqb a "-h" || String.eqb a "--help"
  | _ => false
  end.

Definition main (E : Env) (args : list string) (order : list string)
    (sched : list Action) : State :=
  let st := idleState (isVerboseFlag args) false [] ∅ in
  if isHelpFlag args then set_exited true (emit (EvLog LogHelp) st)
  else
    let st := emit (EvLog LogBanner) st in
    let '(r, st) := initSpeaker E st in
    match r with
    | Err err => set_exited true (emit (EvLog (LogFatal err)) st)
    | Ok _ =>
        let st := preloadSounds E order st in
        let st := emit (EvLog LogListening) st in
        run E sched st
    end.

(** ** Reading the trace *)

Definition isLog (ev : Event) : bool :=
  match ev with
  | EvLog _ => true
  | _ => false
  end.

Definition sendOf (ev : Event) : option (string * bool) :=
  match ev with
  | EvSend f a => Some (f, a)
  | _ => None
  end.

Definition acceptedOf (ev : Event) : option string :=
  match ev with
  | EvSend f true => Some f
  | _ => None
  end.

Definition recvOf (ev : Event) : option string :=
  match ev with
  | EvRecv f => Some f
  | _ => None
  end.

Definition playOf (ev : Event) : option (string * Buffer) :=
  match ev with
  | EvPlay p b => Some (p, b)
  | _ => None
  end.

Definition ioOf (ev : Event) : option Event :=
  match ev with
  | EvOpen _ | EvDecode _ => Some ev
  | _ => None
  end.

(** Every send tried on [playQueue], with its outcome. *)
Definition sends (tr : list Event) : list (string * bool) := omap sendOf tr.
(** The identifiers the channel took. *)
Definition accepted (tr : list Event) : list string := omap acceptedOf tr.
(** The identifiers the consumer received. *)
Definition received (tr : list Event) : list string := omap recvOf tr.
(** The clips handed to the speaker. *)
Definition played (tr : list Event) : list (string * Buffer) :=
  omap playOf tr.
(** The file openings and decodings. *)
Definition fileIO (tr : list Event) : list Event := omap ioOf tr.

(** The state with everything but diagnostics: the [verbose] flag reset and
    the printed lines taken out of the trace. *)
Definition withoutLogs (tr : list Event) : list Event :=
  List.filter (fun ev => negb (isLog ev)) tr.

Definition observable (st : State) : State :=
  mkState false (speakerInitialized st) (playQueue st) (soundCache st)
          (mixer st) (player st) (nextDone st) (exited st)
          (withoutLogs (trace st)).

(** What the device is doing, read off the trace: nothing, one clip, or
    [OutOfTurn] once the trace is not one clip after the other (a clip
    started or an item taken from the queue while a clip sounds, a frame
    mixing clips or from a clip that was not started, a completion of a
    clip that is not the one sounding). *)
Inductive Audio : Type :=
| Silent
| Sounding (clip : string)
| OutOfTurn.

Definition audioStep (a : Audio) (ev : Event) : Audio :=
  match ev, a with
  | EvPlay p _, Silent => Sounding p
  | EvPlay _ _, _ => OutOfTurn
  | EvRecv _, Silent => Silent
  | EvRecv _, _ => OutOfTurn
  | EvFrame clips, Sounding p =>
      if decide (clips = [p]) then Sounding p else OutOfTurn
  | EvFrame _, _ => OutOfTurn
  | EvDone p, Sounding q => if decide (p = q) then Silent else OutOfTurn
  | EvDone _, _ => OutOfTurn
  | _, _ => a
  end.

Definition audio (tr : list Event) : Audio := foldl audioStep Silent tr.

(** The events that [audioStep] passes over. *)
Definition quietEvent (ev : Event) : Prop :=
  match ev with
  | EvPlay _ _ | EvRecv _ | EvFrame _ | EvDone _ => False
  | _ => True
  end.

(** The speaker holds nothing while the consumer stands at its receive, and
    exactly the clip the consumer waits for otherwise; the trace agrees. *)
Definition inTurn (st : State) : Prop :=
  match mixer st, player st with
  | [], AtRange => audio (trace st) = Silent
  | [v], AwaitDone done =>
      done = v_done v ∧ audio (trace st) = Sounding (v_path v)
  | _, _ => False
  end.

(** The sound files whose load goes through on a cache miss. *)
Definition loads (E : Env) (soundPath : string) : bool :=
  match soundFiles_Open E ("sounds/" +:+ soundPath) with
  | Err _ => false
  | Ok file =>
      if HasSuffix soundPath ".mp3" then
        match mp3_Decode E file with Ok _ => true | Err _ => false end
      else if HasSuffix soundPath ".wav" then
        match wav_Decode E file with Ok _ => true | Err _ => false end
      else false
  end.

(** ** A concrete environment for the examples

    Two entries of the Unicode case table (the only runes above [MaxASCII]
    that [unicode.ToLower] sends to an ASCII letter), a [sounds/] directory
    of three files, and a decoder for 16-bit PCM files with the 44-byte RIFF
    header, which reports the channel count and sample rate written in the
    header, as [wav.Decode] does. *)
Module Demo.

Definition lowerTable (r : Z) : N :=
  if r =? 0x212A then 107%N          (* KELVIN SIGN, lower case k *)
  else if r =? 0x130 then 105%N      (* I WITH DOT ABOVE, lower case i *)
  else Z.to_N r.

Definition le16 (b0 b1 : Z) : Z := Z.lor b0 (Z.shiftl b1 8).

Definition le32 (b0 b1 b2 b3 : Z) : Z :=
  Z.lor (le16 b0 b1) (Z.shiftl (le16 b2 b3) 16).

Definition byteOf (n x : Z) : Z := Z.land (Z.shiftr x (8 * n)) 255.

Definition signed16 (x : Z) : Z := if x <? 32768 then x else x - 65536.

Fixpoint pcm16Mono (data : list Z) : list Sample :=
  match data with
  | lo :: hi :: rest =>
      let s := signed16 (le16 lo hi) in (s, s) :: pcm16Mono rest
  | _ => []
  end.

Fixpoint pcm16Stereo (data : list Z) : list Sample :=
  match data with
  | l0 :: l1 :: r0 :: r1 :: rest =>
      (signed16 (le16 l0 l1), signed16 (le16 r0 r1)) :: pcm16Stereo rest
  | _ => []
  end.

Definition bytesAt (file : File) (off len : nat) : list Z :=
  take len (drop off file).

Definition wavDecode (file : File) : result (Format * list Sample) :=
  if negb (bool_decide (bytesAt file 0 4 = [82; 73; 70; 70]))
  then Err "wav: missing RIFF at the beginning"
  else if negb (bool_decide (bytesAt file 8 4 = [87; 65; 86; 69]))
  then Err "wav: missing WAVE"
  else
    match bytesAt file 22 2, bytesAt file 24 4, bytesAt file 34 2 with
    | [c0; c1], [r0; r1; r2; r3], [b0; b1] =>
        let channels := le16 c0 c1 in
        let rate := le32 r0 r1 r2 r3 in
        if negb (le16 b0 b1 =? 16)
        then Err "wav: unsupported number of bits per sample"
        else if channels =? 1
        then Ok (mkFormat rate 1 2, pcm16Mono (drop 44 file))
        else if channels =? 2
        then Ok (mkFormat rate 2 2, pcm16Stereo (drop 44 file))
        else Err "wav: unsupported number of channels"
    | _, _, _ => Err "wav: missing header"
    end.

Definition mp3Decode (file : File) : result (Format * list Sample) :=
  Err "mp3: invalid data".

(** The bytes of a 16-bit PCM file. *)
Definition wavBytes (channels rate : Z) (data : list Z) : File :=
  let size := Z.of_nat (length data) in
  let align := 2 * channels in
  [82; 73; 70; 70] ++ ((fun n => byteOf n (36 + size)) <$> [0; 1; 2; 3])
  ++ [87; 65; 86; 69] ++ [102; 109; 116; 32] ++ [16; 0; 0; 0] ++ [1; 0]
  ++ [byteOf 0 channels; byteOf 1 channels]
  ++ ((fun n => byteOf n rate) <$> [0; 1; 2; 3])
  ++ ((fun n => byteOf n (rate * align)) <$> [0; 1; 2; 3])
  ++ [byteOf 0 align; byteOf 1 align] ++ [16; 0]
  ++ [100; 97; 116; 97] ++ ((fun n => byteOf n size) <$> [0; 1; 2; 3])
  ++ data.

(** [a.wav]: 44100 Hz stereo; [b.wav]: 22050 Hz mono; [c.wav]: not a WAV
    file; [d.ogg]: a file of another kind; nothing else. *)
Definition open (name : string) : result File :=
  if String.eqb name "sounds/a.wav"
  then Ok (wavBytes 2 44100 [1; 0; 2; 0; 3; 0; 4; 0])
  else if String.eqb name "sounds/b.wav"
  then Ok (wavBytes 1 22050 [5; 0; 6; 0])
  else if String.eqb name "sounds/c.wav"
  then Ok [0; 1; 2]
  else if String.eqb name "sounds/d.ogg"
  then Ok [79; 103; 103; 83]
  else Err ("open " +:+ name +:+ ": file does not exist").

Definition env : Env :=
  mkEnv lowerTable open mp3Decode wavDecode (fun _ _ => Ok tt).

(** A key-down event for a character. *)
Definition keyDown (char : Z) : HookEvent := mkHookEvent 3 0 char 0.

(** A process with the speaker open, nothing queued and nothing cached. *)
Definition start : State := idleState false true [] ∅.

End Demo.

(** ** What a cache miss decodes

    The part of [loadSound] after the cache lookup, main.go lines 91-114,
    without the state: the open, the choice of decoder by suffix, the
    decode, and the buffer built from what the decoder gives. *)
Definition decodeAsset (E : Env) (soundPath : string) : result Buffer :=
  match soundFiles_Open E ("sounds/" +:+ soundPath) with
  | Err err => Err err
  | Ok file =>
      if HasSuffix soundPath ".mp3" then
        match mp3_Decode E file with
        | Err err => Err err
        | Ok (format, frames) => Ok (mkBuffer format frames)
        end
      else if HasSuffix soundPath ".wav" then
        match wav_Decode E file with
        | Err err => Err err
        | Ok (format, frames) => Ok (mkBuffer format frames)
        end
      else Err ("unsupported format: " +:+ soundPath)
  end.

(** The identifier played with the decoding of its asset, if it decodes. *)
Definition clipOf (E : Env) (soundFile : string) : option (string * Buffer) :=
  match decodeAsset E soundFile with
  | Ok buffer => Some (soundFile, buffer)
  | Err _ => None
  end.

(** The file a hook event asks for: that of its key character when it is
    a key-down, none otherwise. *)
Definition keyFile (E : Env) (ev : HookEvent) : option string :=
  if Kind ev =? 3 then dispatch E (Keychar ev) else None.

(** ** More readers of the trace *)

Definition speakerInitOf (ev : Event) : option (Z * Z) :=
  match ev with
  | EvSpeakerInit sampleRate bufferSize => Some (sampleRate, bufferSize)
  | _ => None
  end.

Definition logOf (ev : Event) : option LogMsg :=
  match ev with
  | EvLog m => Some m
  | _ => None
  end.

Definition openOf (ev : Event) : option string :=
  match ev with
  | EvOpen name => Some name
  | _ => None
  end.

(** The calls of [speaker.Init], with their arguments. *)
Definition speakerInits (tr : list Event) : list (Z * Z) :=
  omap speakerInitOf tr.
(** The lines printed. *)
Definition printed (tr : list Event) : list LogMsg := omap logOf tr.
(** The names given to [soundFiles.Open]. *)
Definition opened (tr : list Event) : list string := omap openOf tr.

(** ** Invariants of a run of [main] *)

(** Every entry of the cache is keyed by a file of the table and holds the
    decoding of that file's asset. *)
Definition coherent (E : Env) (c : gmap string Buffer) : Prop :=
  ∀ soundFile buffer, c !! soundFile = Some buffer →
    soundFile ∈ phonicsFiles ∧ decodeAsset E soundFile = Ok buffer.

(** The events [handleEvent] can add in a state with the given flag. *)
Definition producerEvent (v : bool) (ev : Event) : Prop :=
  match ev with
  | EvLog _ => v = true
  | EvSend soundFile _ => soundFile ∈ phonicsFiles
  | _ => False
  end.

(** The events [playSound] can add for an identifier, in a state with the
    given flags. *)
Definition consumerEvent (v si : bool) (soundPath : string) (ev : Event)
    : Prop :=
  match ev with
  | EvLog _ => v = true
  | EvOpen name => name = "sounds/" +:+ soundPath
  | EvDecode p => p = soundPath
  | EvSpeakerInit sampleRate bufferSize =>
      si = false ∧ sampleRate = 44100 ∧ bufferSize = 734
  | EvPlay p _ => p = soundPath
  | _ => False
  end.

(** The events [preloadSounds] can add in a state with the given flag. *)
Definition preloadEvent (v : bool) (ev : Event) : Prop :=
  match ev with
  | EvLog _ => v = true
  | EvOpen _ | EvDecode _ => True
  | _ => False
  end.

(** The events [speakerUpdate] can add. *)
Definition speakerEvent (ev : Event) : Prop :=
  match ev with
  | EvFrame _ | EvDone _ => True
  | _ => False
  end.

(** The events of a run of [main]: what is sent, received, decoded and
    played is a file of the table, what is opened is such a file under
    [sounds/], and what is played is the decoding of its asset. *)
Definition tableEvent (E : Env) (ev : Event) : Prop :=
  match ev with
  | EvSend soundFile _ | EvRecv soundFile | EvDecode soundFile =>
      soundFile ∈ phonicsFiles
  | EvOpen name => ∃ soundFile, soundFile ∈ phonicsFiles ∧
                                name = "sounds/" +:+ soundFile
  | EvPlay soundFile buffer =>
      soundFile ∈ phonicsFiles ∧ decodeAsset E soundFile = Ok buffer
  | _ => True
  end.

Definition tableState (E : Env) (st : State) : Prop :=
  Forall (tableEvent E) (trace st) ∧
  Forall (fun soundFile => soundFile ∈ phonicsFiles) (playQueue st) ∧
  coherent E (soundCache st).

(** ** Two more environments for the examples *)

(** A [sounds/] directory in which every name is a 44100 Hz stereo file. *)
Module Studio.

Definition open (name : string) : result File :=
  Ok (Demo.wavBytes 2 44100 [1; 0; 2; 0]).

Definition env : Env :=
  mkEnv Demo.lowerTable open Demo.mp3Decode Demo.wavDecode
        (fun _ _ => Ok tt).

End Studio.

(** A machine whose audio device cannot be opened. *)
Module Mute.

Definition env : Env :=
  mkEnv Demo.lowerTable Demo.open Demo.mp3Decode Demo.wavDecode
        (fun _ _ => Err "no audio device").

(** A process that has not opened the speaker. *)
Definition start : State := idleState false false [] ∅.

End Mute.

(** * Properties *)

(** ** Proof steps shared by the lemmas below *)

Arguments phonicsMap : simpl never.

Ltac split_cases :=
  repeat (simpl in *; case_match; simplify_eq; simpl in *).

Ltac trace_simpl :=
  unfold sends, accepted, received, played, fileIO, withoutLogs, audio in *;
  repeat (rewrite ?omap_app, ?List.filter_app, ?foldl_app, <- ?app_assoc;
          simpl);
  rewrite ?app_nil_r.

(** ** What [loadSound] leaves alone *)

Lemma loadSound_frame (E : Env) (soundPath : string) (st : State) :
  let st' := (loadSound E soundPath st).2 in
  verbose st' = verbose st ∧
  speakerInitialized st' = speakerInitialized st ∧
  playQueue st' = playQueue st ∧
  mixer st' = mixer st ∧
  player st' = player st ∧
  nextDone st' = nextDone st ∧
  exited st' = exited st.
Proof. unfold loadSound. split_cases; repeat split; reflexivity. Qed.

(** The events [loadSound] adds are file openings and decodings only. *)
Lemma loadSound_trace (E : Env) (soundPath : string) (st : State) :
  ∃ evs, trace (loadSound E soundPath st).2 = trace st ++ evs ∧
         Forall (fun ev => ev = EvOpen ("sounds/" +:+ soundPath) ∨
                           ev = EvDecode soundPath) evs.
Proof.
  unfold loadSound. split_cases;
    first [ exists []; rewrite app_nil_r; split; [reflexivity | constructor]
          | eexists [_]; split; [reflexivity |]
          | eexists [_; _]; rewrite <- app_assoc; split; [reflexivity |] ];
    repeat (apply Forall_cons_2; [(by left) || (by right) |]);
    apply Forall_nil_2.
Qed.

(** ** What [playSound] leaves alone *)

Lemma playSound_frame (E : Env) (soundPath : string) (st : State) :
  let st' := playSound E soundPath st in
  verbose st' = verbose st ∧
  playQueue st' = playQueue st ∧
  exited st' = exited st ∧
  soundCache st' = soundCache (loadSound E soundPath st).2.
Proof.
  unfold playSound.
  destruct (loadSound E soundPath st) as [r st1] eqn:Hload.
  pose proof (loadSound_frame E soundPath st) as Hf.
  rewrite Hload in Hf; simpl in Hf.
  destruct Hf as (Hv & _ & Hq & _ & _ & _ & Hx).
  unfold initSpeaker, logv.
  split_cases; repeat split; congruence.
Qed.

Lemma playSound_trace (E : Env) (soundPath : string) (st : State) :
  ∃ evs, trace (playSound E soundPath st) = trace st ++ evs ∧
         sends evs = [] ∧ accepted evs = [] ∧ received evs = [].
Proof.
  unfold playSound.
  destruct (loadSound_trace E soundPath st) as (evs & Htr & Hevs).
  assert (sends evs = [] ∧ accepted evs = [] ∧ received evs = [])
    as (Hs & Ha & Hr).
  { clear Htr. induction Hevs as [|ev evs [-> | ->] _ (IH1 & IH2 & IH3)];
      repeat split; trace_simpl; auto. }
  destruct (loadSound E soundPath st) as [r st1]; simpl in Htr.
  unfold initSpeaker, logv.
  split_cases; rewrite ?Htr, <- ?app_assoc;
    eexists; (split; [reflexivity |]); trace_simpl;
    rewrite ?Hs, ?Ha, ?Hr, ?app_nil_r; auto.
Qed.

(** ** The channel *)

Lemma chan_trySend_length {A : Type} (cap : nat) (q : list A) (x : A) :
  (length q ≤ cap)%nat → (length (chan_trySend cap q x).1 ≤ cap)%nat.
Proof.
  intros Hq. unfold chan_trySend.
  destruct (Nat.ltb_spec (length q) cap); simpl; [| assumption].
  rewrite length_app; simpl; lia.
Qed.

(** ** The queue along a run *)

Lemma handleKeyPress_queue (char : Z) (st : State) :
  ∃ new : list string,
    playQueue (handleKeyPress char st) = playQueue st ++ new ∧
    accepted (trace (handleKeyPress char st)) = accepted (trace st) ++ new ∧
    received (trace (handleKeyPress char st)) = received (trace st) ∧
    (length (playQueue st) ≤ playQueue_cap →
     length (playQueue (handleKeyPress char st)) ≤ playQueue_cap)%nat.
Proof.
  unfold handleKeyPress, logv, chan_trySend.
  destruct (phonicsMap !! char) as [soundFile|];
    [| exists []; rewrite !app_nil_r; auto].
  destruct (verbose st) eqn:Hv; simpl;
    destruct (Nat.ltb_spec (length (playQueue st)) playQueue_cap);
    simpl; rewrite ?Hv; simpl;
    first [ solve [ exists [soundFile]; trace_simpl; repeat split; auto;
                    rewrite length_app; unfold playQueue_cap in *;
                    simpl; lia ]
          | exists []; trace_simpl; repeat split; auto ].
Qed.

Lemma handleEvent_queue (E : Env) (ev : HookEvent) (st : State) :
  ∃ new : list string,
    playQueue (handleEvent E ev st) = playQueue st ++ new ∧
    accepted (trace (handleEvent E ev st)) = accepted (trace st) ++ new ∧
    received (trace (handleEvent E ev st)) = received (trace st) ∧
    (length (playQueue st) ≤ playQueue_cap →
     length (playQueue (handleEvent E ev st)) ≤ playQueue_cap)%nat.
Proof.
  unfold handleEvent.
  set (st1 := logv _ st).
  assert (playQueue st1 = playQueue st ∧
          accepted (trace st1) = accepted (trace st) ∧
          received (trace st1) = received (trace st)) as (Hq & Ha & Hr).
  { unfold st1, logv. destruct (verbose st); simpl; trace_simpl; auto. }
  destruct (Kind ev =? 3); [destruct (negb (Keychar ev =? 0)) |].
  - destruct (handleKeyPress_queue (lowerKeychar E (Keychar ev)) st1)
      as (new & H1 & H2 & H3 & H4).
    exists new. rewrite H1, H2, H3, Hq, Ha, Hr in *. auto.
  - exists []. unfold logv. rewrite !app_nil_r.
    destruct (verbose st1); simpl; trace_simpl; rewrite ?Hq, ?Ha, ?Hr; auto.
  - exists []. rewrite !app_nil_r, Hq, Ha, Hr. auto.
Qed.

Lemma speakerUpdate_queue (st : State) :
  playQueue (speakerUpdate st) = playQueue st ∧
  accepted (trace (speakerUpdate st)) = accepted (trace st) ∧
  received (trace (speakerUpdate st)) = received (trace st).
Proof.
  unfold speakerUpdate. split_cases; trace_simpl; auto.
Qed.

Lemma soundPlayer_queue (E : Env) (st : State) :
  ∃ got : list string,
    playQueue st = got ++ playQueue (soundPlayer E st) ∧
    received (trace (soundPlayer E st)) = received (trace st) ++ got ∧
    accepted (trace (soundPlayer E st)) = accepted (trace st).
Proof.
  unfold soundPlayer, chan_recv.
  destruct (player st); [| exists []; trace_simpl; auto].
  destruct (playQueue st) as [|soundFile q] eqn:Hq;
    [exists []; trace_simpl; auto |].
  set (st1 := emit _ _).
  destruct (playSound_frame E soundFile st1) as (_ & Hq' & _).
  destruct (playSound_trace E soundFile st1) as (evs & Htr & _ & Ha & Hr).
  exists [soundFile]. rewrite Hq', Htr. unfold st1; simpl.
  trace_simpl. unfold accepted, received in Ha, Hr.
  rewrite Ha, Hr, ?app_nil_r. auto.
Qed.

Lemma step_fifo (E : Env) (a : Action) (st : State) (pre : list string) :
  pre ++ accepted (trace st) = received (trace st) ++ playQueue st →
  pre ++ accepted (trace (step E a st)) =
    received (trace (step E a st)) ++ playQueue (step E a st).
Proof.
  intros Hinv. unfold step. destruct (exited st); [assumption |].
  destruct a as [ev | | |].
  - destruct (handleEvent_queue E ev st) as (new & H1 & H2 & H3 & _).
    rewrite H1, H2, H3, !app_assoc, Hinv. reflexivity.
  - simpl. trace_simpl. assumption.
  - destruct (soundPlayer_queue E st) as (got & H1 & H2 & H3).
    rewrite H2, H3, Hinv, H1, app_assoc. reflexivity.
  - destruct (speakerUpdate_queue st) as (H1 & H2 & H3).
    rewrite H1, H2, H3. assumption.
Qed.

Lemma step_queue_bound (E : Env) (a : Action) (st : State) :
  (length (playQueue st) ≤ playQueue_cap →
   length (playQueue (step E a st)) ≤ playQueue_cap)%nat.
Proof.
  intros Hle. unfold step. destruct (exited st); [assumption |].
  destruct a as [ev | | |].
  - destruct (handleEvent_queue E ev st) as (new & _ & _ & _ & H). auto.
  - assumption.
  - destruct (soundPlayer_queue E st) as (got & H1 & _).
    rewrite H1, length_app in Hle. lia.
  - destruct (speakerUpdate_queue st) as (H1 & _). rewrite H1. assumption.
Qed.

Lemma run_fifo (E : Env) (sched : list Action) (st : State)
    (pre : list string) :
  pre ++ accepted (trace st) = received (trace st) ++ playQueue st →
  pre ++ accepted (trace (run E sched st)) =
    received (trace (run E sched st)) ++ playQueue (run E sched st).
Proof.
  revert st. induction sched as [|a sched IH]; intros st Hinv; simpl.
  - assumption.
  - apply IH, step_fifo, Hinv.
Qed.

Lemma run_queue_bound (E : Env) (sched : list Action) (st : State) :
  (length (playQueue st) ≤ playQueue_cap →
   length (playQueue (run E sched st)) ≤ playQueue_cap)%nat.
Proof.
  revert st. induction sched as [|a sched IH]; intros st Hle; simpl.
  - assumption.
  - apply IH, step_queue_bound, Hle.
Qed.

(** ** One clip after the other *)

Lemma audio_quiet (tr evs : list Event) :
  Forall quietEvent evs → audio (tr ++ evs) = audio tr.
Proof.
  unfold audio. rewrite foldl_app. generalize (foldl audioStep Silent tr).
  intros a H. induction H as [|ev evs Hev _ IH]; simpl; [reflexivity |].
  rewrite <- IH at 2. f_equal. destruct ev, a; simpl in *; tauto.
Qed.

Lemma audio_emit_quiet (ev : Event) (st : State) :
  quietEvent ev → audio (trace (emit ev st)) = audio (trace st).
Proof. intros H. simpl. apply audio_quiet. repeat constructor. exact H. Qed.

Lemma inTurn_logv (m : LogMsg) (st : State) : inTurn st → inTurn (logv m st).
Proof.
  unfold logv. destruct (verbose st); [| auto].
  unfold inTurn. simpl. rewrite (audio_quiet (trace st) [EvLog m]); [auto |].
  repeat constructor.
Qed.

Lemma playSound_inTurn (E : Env) (soundPath : string) (st : State) :
  mixer st = [] → player st = AtRange → audio (trace st) = Silent →
  inTurn (playSound E soundPath st).
Proof.
  intros Hm Hp Ha. unfold playSound.
  destruct (loadSound_trace E soundPath st) as (evs & Htr & Hevs).
  pose proof (loadSound_frame E soundPath st) as Hf.
  destruct (loadSound E soundPath st) as [r st1]; simpl in Htr, Hf.
  destruct Hf as (_ & _ & _ & Hm1 & Hp1 & _ & _).
  assert (audio (trace st1) = Silent) as Ha1.
  { rewrite Htr, audio_quiet; [assumption |].
    eapply Forall_impl; [exact Hevs |]. intros ev [-> | ->]; exact I. }
  assert (inTurn st1) as Hin.
  { unfold inTurn. rewrite Hm1, Hm, Hp1, Hp. exact Ha1. }
  destruct r as [[buffer format] | err]; [| apply inTurn_logv, Hin].
  unfold initSpeaker.
  destruct (speakerInitialized st1).
  - unfold inTurn; simpl. rewrite Hm1, Hm; simpl. split; [reflexivity |].
    unfold audio in *. rewrite foldl_app, Ha1. reflexivity.
  - destruct (speaker_Init E _ _) as [u | err].
    + unfold inTurn; simpl. rewrite Hm1, Hm; simpl. split; [reflexivity |].
      unfold audio in *. rewrite !foldl_app, Ha1. reflexivity.
    + apply inTurn_logv. unfold inTurn; simpl. rewrite Hm1, Hm, Hp1, Hp.
      unfold audio in *. rewrite foldl_app, Ha1. reflexivity.
Qed.

Lemma soundPlayer_inTurn (E : Env) (st : State) :
  inTurn st → inTurn (soundPlayer E st).
Proof.
  intros Hin. unfold soundPlayer.
  destruct (player st) eqn:Hp; [| assumption].
  destruct (chan_recv (playQueue st)) as [[soundFile q] |]; [| assumption].
  unfold inTurn in Hin. rewrite Hp in Hin.
  destruct (mixer st) as [|v m] eqn:Hm; [| destruct m; contradiction].
  apply playSound_inTurn; simpl; try assumption.
  unfold audio in *. rewrite foldl_app, Hin. reflexivity.
Qed.

Lemma speakerUpdate_inTurn (st : State) :
  inTurn st → inTurn (speakerUpdate st).
Proof.
  intros Hin. pose proof Hin as Hin0. unfold inTurn in Hin.
  unfold speakerUpdate.
  destruct (mixer st) as [|v [|w m]] eqn:Hm;
    destruct (player st) as [|done] eqn:Hp; try contradiction.
  - simpl. exact Hin0.
  - destruct Hin as [-> Ha]. simpl. unfold isDrained.
    destruct (v_left v) as [|x left]; simpl.
    + rewrite Nat.eqb_refl. unfold inTurn; simpl. unfold audio in *.
      rewrite foldl_app, Ha; simpl. rewrite decide_True; reflexivity.
    + unfold inTurn; simpl. split; [reflexivity |]. unfold audio in *.
      rewrite foldl_app, Ha; simpl. rewrite decide_True; reflexivity.
Qed.

Lemma handleEvent_inTurn (E : Env) (ev : HookEvent) (st : State) :
  inTurn st → inTurn (handleEvent E ev st).
Proof.
  intros Hin. unfold handleEvent.
  set (st1 := logv _ st).
  assert (inTurn st1) as Hin1 by (apply inTurn_logv, Hin).
  clearbody st1.
  destruct (Kind ev =? 3); [| assumption].
  destruct (negb (Keychar ev =? 0)); [| apply inTurn_logv, Hin1].
  unfold handleKeyPress.
  destruct (phonicsMap !! _) as [soundFile |]; [| assumption].
  set (st2 := logv _ st1).
  assert (inTurn st2) as Hin2 by (apply inTurn_logv, Hin1).
  clearbody st2.
  destruct (chan_trySend _ _ _) as [q accepted].
  assert (inTurn (emit (EvSend soundFile accepted) (set_playQueue q st2)))
    as Hin3.
  { unfold inTurn in *; simpl.
    rewrite (audio_quiet (trace st2) [EvSend soundFile accepted]);
      [assumption | repeat constructor]. }
  destruct accepted; [assumption | apply inTurn_logv, Hin3].
Qed.

Lemma step_inTurn (E : Env) (a : Action) (st : State) :
  inTurn st → inTurn (step E a st).
Proof.
  intros Hin. unfold step. destruct (exited st); [assumption |].
  destruct a as [ev | | |].
  - apply handleEvent_inTurn, Hin.
  - unfold inTurn in *; simpl.
    rewrite (audio_quiet (trace st) [EvLog LogExiting]);
      [assumption | repeat constructor].
  - apply soundPlayer_inTurn, Hin.
  - apply speakerUpdate_inTurn, Hin.
Qed.

Lemma run_inTurn (E : Env) (sched : list Action) (st : State) :
  inTurn st → inTurn (run E sched st).
Proof.
  revert st. induction sched as [|a sched IH]; intros st Hin; simpl.
  - assumption.
  - apply IH, step_inTurn, Hin.
Qed.

(** ** The cases of [loadSound] *)

Lemma loadSound_hit (E : Env) (soundPath : string) (st : State)
    (buffer : Buffer) :
  soundCache st !! soundPath = Some buffer →
  loadSound E soundPath st = (Ok (buffer, mkFormat 44100 2 2), st).
Proof. intros H. unfold loadSound. rewrite H. reflexivity. Qed.

Lemma loadSound_ok_cached (E : Env) (soundPath : string) (st st' : State)
    (buffer : Buffer) (format : Format) :
  loadSound E soundPath st = (Ok (buffer, format), st') →
  soundCache st' !! soundPath = Some buffer.
Proof.
  unfold loadSound. intros H. split_cases; try assumption.
  all: apply lookup_insert_eq.
Qed.

Lemma loadSound_miss_loads (E : Env) (soundPath : string) (st : State) :
  soundCache st !! soundPath = None →
  loads E soundPath = true →
  ∃ buffer format,
    (loadSound E soundPath st).1 = Ok (buffer, format) ∧
    soundCache (loadSound E soundPath st).2 =
      <[soundPath := buffer]> (soundCache st).
Proof.
  unfold loadSound, loads. intros Hmiss H. rewrite Hmiss.
  split_cases; eauto.
Qed.

Lemma loadSound_err (E : Env) (soundPath : string) (st st' : State)
    (err : error) :
  loadSound E soundPath st = (Err err, st') →
  soundCache st !! soundPath = None ∧
  soundCache st' = soundCache st ∧
  loads E soundPath = false.
Proof.
  unfold loadSound, loads. intros H. split_cases; auto.
Qed.

(** The cache only grows. *)
Lemma loadSound_keeps (E : Env) (soundPath other : string) (st : State) :
  is_Some (soundCache st !! other) →
  is_Some (soundCache (loadSound E soundPath st).2 !! other).
Proof.
  unfold loadSound. intros H. split_cases; try assumption.
  all: rewrite lookup_insert; case_decide; [eauto | assumption].
Qed.

(** ** The letter table and the case mapping *)

Lemma phonicsMap_letter (r : Z) :
  isLowerLatin r = true → phonicsMap !! r = Some (letterFile r).
Proof.
  unfold isLowerLatin. intros H.
  assert (∃ n : nat, (n < 26)%nat ∧ r = 97 + Z.of_nat n) as (n & Hn & ->).
  { exists (Z.to_nat (r - 97)). lia. }
  do 26 (destruct n as [|n]; [vm_compute; reflexivity |]). lia.
Qed.

Lemma phonicsMap_other (r : Z) :
  isLowerLatin r = false → phonicsMap !! r = None.
Proof.
  unfold isLowerLatin. intros H.
  apply not_elem_of_list_to_map_1. intros Hin.
  apply list_elem_of_In in Hin. vm_compute in Hin.
  repeat (destruct Hin as [Hin | Hin]; [lia |]). exact Hin.
Qed.

Lemma phonicsMap_lookup (r : Z) :
  phonicsMap !! r = if isLowerLatin r then Some (letterFile r) else None.
Proof.
  destruct (isLowerLatin r) eqn:H;
    [apply phonicsMap_letter | apply phonicsMap_other]; exact H.
Qed.

Lemma validRune_range (r : Z) : 0 ≤ validRune r ≤ MaxRune.
Proof.
  unfold validRune, MaxRune, RuneError.
  destruct (r <? 0) eqn:H1; destruct (1114111 <? r) eqn:H2; simpl; try lia.
  destruct ((55296 <=? r) && (r <=? 57343)); lia.
Qed.

Lemma validRune_ascii (r : Z) : 0 ≤ r ≤ MaxASCII → validRune r = r.
Proof.
  unfold validRune, MaxRune, MaxASCII. intros H.
  destruct (r <? 0) eqn:H1; destruct (1114111 <? r) eqn:H2; simpl; try lia.
  destruct (55296 <=? r) eqn:H3; simpl; [lia | reflexivity].
Qed.

Lemma validRune_small (r : Z) : validRune r ≤ MaxASCII → validRune r = r.
Proof.
  unfold validRune, MaxRune, MaxASCII, RuneError.
  destruct ((r <? 0) || (1114111 <? r) || ((55296 <=? r) && (r <=? 57343)));
    [lia | reflexivity].
Qed.

(** A byte with its top bit set is no ASCII letter. *)
Lemma lor_high_not_letter (a b : Z) :
  Z.testbit a 7 = true → isLowerLatin (Z.lor a b) = false.
Proof.
  intros Ha. destruct (isLowerLatin (Z.lor a b)) eqn:H; [| reflexivity].
  unfold isLowerLatin in H.
  assert (Z.testbit (Z.lor a b) 7 = false) as Hbit.
  { apply Z.testbit_false; [lia |].
    rewrite Z.div_small; [reflexivity | lia]. }
  rewrite Z.lor_spec, Ha in Hbit. discriminate.
Qed.

Lemma utf8_lead_high (r : Z) :
  MaxASCII < r → isLowerLatin (hd 0 (utf8_encode r)) = false.
Proof.
  unfold utf8_encode, MaxASCII. intros H.
  destruct (r <=? 127) eqn:H1; [lia |].
  destruct (r <=? 2047); [| destruct (r <=? 65535)]; simpl;
    apply lor_high_not_letter; reflexivity.
Qed.

Lemma utf8_lead_ascii (r : Z) : r ≤ MaxASCII → hd 0 (utf8_encode r) = r.
Proof.
  unfold utf8_encode, MaxASCII. intros H.
  destruct (r <=? 127) eqn:H1; [reflexivity | lia].
Qed.

(** On ASCII the event loop's lower-casing is the usual one. *)
Lemma lowerKeychar_ascii (E : Env) (char : Z) :
  0 ≤ char ≤ MaxASCII →
  lowerKeychar E char = if isUpperLatin char then char + 32 else char.
Proof.
  intros H. unfold lowerKeychar, strings_ToLower_rune, unicode_ToLower.
  rewrite (validRune_ascii char H).
  unfold MaxASCII in *. destruct (char <=? 127) eqn:H1; [| lia].
  unfold isUpperLatin.
  destruct ((65 <=? char) && (char <=? 90)) eqn:H2.
  - rewrite validRune_ascii, utf8_lead_ascii;
      unfold MaxASCII; try reflexivity; lia.
  - rewrite validRune_ascii, utf8_lead_ascii;
      unfold MaxASCII; try reflexivity; lia.
Qed.

(** A character whose lower case lies above ASCII leads to a byte that is
    no letter. *)
Lemma lowerKeychar_high (E : Env) (char : Z) :
  MaxASCII < unicode_ToLower E (validRune char) →
  isLowerLatin (lowerKeychar E char) = false.
Proof.
  intros H. unfold lowerKeychar, strings_ToLower_rune.
  apply utf8_lead_high.
  set (lowered := validRune (unicode_ToLower E (validRune char))).
  destruct (Z_lt_le_dec MaxASCII lowered) as [Hlt | Hle]; [exact Hlt |].
  unfold lowered in Hle.
  rewrite (validRune_small _ Hle) in Hle. lia.
Qed.

(** ** Diagnostics do not steer the program

    Two states with the same [observable] part stay that way under every
    function of the program, and the functions return the same results. *)

Lemma withoutLogs_idem (tr : list Event) :
  withoutLogs (withoutLogs tr) = withoutLogs tr.
Proof.
  unfold withoutLogs. induction tr as [|ev tr IH]; simpl; [reflexivity |].
  destruct (negb (isLog ev)) eqn:H; simpl; rewrite ?H, IH; reflexivity.
Qed.

Lemma observable_idem (st : State) : observable (observable st) = observable st.
Proof. unfold observable; simpl. rewrite withoutLogs_idem. reflexivity. Qed.

Lemma observable_fields (st1 st2 : State) :
  observable st1 = observable st2 →
  speakerInitialized st1 = speakerInitialized st2 ∧
  playQueue st1 = playQueue st2 ∧
  soundCache st1 = soundCache st2 ∧
  mixer st1 = mixer st2 ∧
  player st1 = player st2 ∧
  nextDone st1 = nextDone st2 ∧
  exited st1 = exited st2 ∧
  withoutLogs (trace st1) = withoutLogs (trace st2).
Proof. unfold observable. intros H. injection H. auto 10. Qed.

Lemma obs_logv (m : LogMsg) (st : State) :
  observable (logv m st) = observable st.
Proof.
  unfold logv, observable. destruct (verbose st); simpl; [| reflexivity].
  unfold withoutLogs. rewrite List.filter_app; simpl.
  rewrite app_nil_r. reflexivity.
Qed.

Lemma obs_emit (ev : Event) (st1 st2 : State) :
  observable st1 = observable st2 →
  observable (emit ev st1) = observable (emit ev st2).
Proof.
  intros H. apply observable_fields in H as (? & ? & ? & ? & ? & ? & ? & Ht).
  unfold observable, withoutLogs in *; simpl.
  rewrite !List.filter_app. congruence.
Qed.

Lemma obs_set_playQueue (q : list string) (st1 st2 : State) :
  observable st1 = observable st2 →
  observable (set_playQueue q st1) = observable (set_playQueue q st2).
Proof.
  intros H. apply observable_fields in H as (? & ? & ? & ? & ? & ? & ? & Ht).
  unfold observable; simpl. congruence.
Qed.

Lemma obs_set_soundCache (c : gmap string Buffer) (st1 st2 : State) :
  observable st1 = observable st2 →
  observable (set_soundCache c st1) = observable (set_soundCache c st2).
Proof.
  intros H. apply observable_fields in H as (? & ? & ? & ? & ? & ? & ? & Ht).
  unfold observable; simpl. congruence.
Qed.

Lemma obs_set_speaker (m : list Voice) (p : PlayerState) (n : nat)
    (st1 st2 : State) :
  observable st1 = observable st2 →
  observable (set_speaker m p n st1) = observable (set_speaker m p n st2).
Proof.
  intros H. apply observable_fields in H as (? & ? & ? & ? & ? & ? & ? & Ht).
  unfold observable; simpl. congruence.
Qed.

Lemma obs_set_speakerInitialized (b : bool) (st1 st2 : State) :
  observable st1 = observable st2 →
  observable (set_speakerInitialized b st1) =
    observable (set_speakerInitialized b st2).
Proof.
  intros H. apply observable_fields in H as (? & ? & ? & ? & ? & ? & ? & Ht).
  unfold observable; simpl. congruence.
Qed.

Lemma obs_set_exited (b : bool) (st1 st2 : State) :
  observable st1 = observable st2 →
  observable (set_exited b st1) = observable (set_exited b st2).
Proof.
  intros H. apply observable_fields in H as (? & ? & ? & ? & ? & ? & ? & Ht).
  unfold observable; simpl. congruence.
Qed.

Lemma obs_set_verbose (b : bool) (st : State) :
  observable (set_verbose b st) = observable st.
Proof. reflexivity. Qed.

Ltac obs_cong :=
  repeat first
    [ assumption
    | reflexivity
    | rewrite !obs_logv
    | apply obs_emit
    | apply obs_set_playQueue
    | apply obs_set_soundCache
    | apply obs_set_speaker
    | apply obs_set_speakerInitialized
    | apply obs_set_exited
    | solve [unfold observable in *; simpl in *; congruence] ].

Lemma loadSound_obs (E : Env) (soundPath : string) (st1 st2 : State) :
  observable st1 = observable st2 →
  (loadSound E soundPath st1).1 = (loadSound E soundPath st2).1 ∧
  observable (loadSound E soundPath st1).2 =
    observable (loadSound E soundPath st2).2.
Proof.
  intros H. pose proof (observable_fields _ _ H) as (_ & _ & Hc & _).
  unfold loadSound. simpl. rewrite Hc.
  split_cases; split; obs_cong.
Qed.

Lemma initSpeaker_obs (E : Env) (st1 st2 : State) :
  observable st1 = observable st2 →
  (initSpeaker E st1).1 = (initSpeaker E st2).1 ∧
  observable (initSpeaker E st1).2 = observable (initSpeaker E st2).2.
Proof.
  intros H. pose proof (observable_fields _ _ H) as (Hsi & _).
  unfold initSpeaker. rewrite Hsi.
  split_cases; split; obs_cong.
Qed.

Lemma playSound_obs (E : Env) (soundPath : string) (st1 st2 : State) :
  observable st1 = observable st2 →
  observable (playSound E soundPath st1) =
    observable (playSound E soundPath st2).
Proof.
  intros H. unfold playSound.
  destruct (loadSound_obs E soundPath st1 st2 H) as [Hr Hs].
  destruct (loadSound E soundPath st1) as [r1 s1].
  destruct (loadSound E soundPath st2) as [r2 s2].
  simpl in Hr, Hs. subst r2.
  destruct r1 as [[buffer format] | err]; [| obs_cong].
  pose proof (observable_fields _ _ Hs) as (Hsi & _ & _ & Hm & _ & Hn & _).
  rewrite Hsi. destruct (speakerInitialized s2).
  - rewrite Hm, Hn. obs_cong.
  - destruct (initSpeaker_obs E s1 s2 Hs) as [Hr' Hs'].
    destruct (initSpeaker E s1) as [r1' s1'].
    destruct (initSpeaker E s2) as [r2' s2'].
    simpl in Hr', Hs'. subst r2'.
    destruct r1' as [u | err]; [| obs_cong].
    pose proof (observable_fields _ _ Hs') as (_ & _ & _ & Hm' & _ & Hn' & _).
    rewrite Hm', Hn'. obs_cong.
Qed.

Lemma soundPlayer_obs (E : Env) (st1 st2 : State) :
  observable st1 = observable st2 →
  observable (soundPlayer E st1) = observable (soundPlayer E st2).
Proof.
  intros H. pose proof (observable_fields _ _ H) as (_ & Hq & _ & _ & Hp & _).
  unfold soundPlayer. rewrite Hq, Hp.
  destruct (player st2); [| assumption].
  destruct (chan_recv (playQueue st2)) as [[soundFile q] |]; [| assumption].
  apply playSound_obs. obs_cong.
Qed.

Lemma speakerUpdate_obs (st1 st2 : State) :
  observable st1 = observable st2 →
  observable (speakerUpdate st1) = observable (speakerUpdate st2).
Proof.
  intros H.
  pose proof (observable_fields _ _ H) as (_ & _ & _ & Hm & Hp & Hn & _).
  unfold speakerUpdate. rewrite Hm, Hp, Hn.
  split_cases; obs_cong.
Qed.

Lemma handleKeyPress_obs (char : Z) (st1 st2 : State) :
  observable st1 = observable st2 →
  observable (handleKeyPress char st1) = observable (handleKeyPress char st2).
Proof.
  intros H. unfold handleKeyPress.
  destruct (phonicsMap !! char) as [soundFile |]; [| assumption].
  assert (observable (logv (LogKeyPressed char soundFile) st1) =
          observable (logv (LogKeyPressed char soundFile) st2)) as H1
    by obs_cong.
  pose proof (observable_fields _ _ H1) as (_ & Hq & _).
  rewrite Hq.
  destruct (chan_trySend _ _ _) as [q [|]]; obs_cong.
Qed.

Lemma handleEvent_obs (E : Env) (ev : HookEvent) (st1 st2 : State) :
  observable st1 = observable st2 →
  observable (handleEvent E ev st1) = observable (handleEvent E ev st2).
Proof.
  intros H. unfold handleEvent.
  destruct (Kind ev =? 3); [| obs_cong].
  destruct (negb (Keychar ev =? 0)); [| obs_cong].
  apply handleKeyPress_obs. obs_cong.
Qed.

Lemma step_obs (E : Env) (a : Action) (st1 st2 : State) :
  observable st1 = observable st2 →
  observable (step E a st1) = observable (step E a st2).
Proof.
  intros H.
  pose proof (observable_fields _ _ H) as (_ & _ & _ & _ & _ & _ & Hx & _).
  unfold step. rewrite Hx. destruct (exited st2); [assumption |].
  destruct a as [ev | | |].
  - apply handleEvent_obs, H.
  - obs_cong.
  - apply soundPlayer_obs, H.
  - apply speakerUpdate_obs, H.
Qed.

Lemma run_obs (E : Env) (sched : list Action) (st1 st2 : State) :
  observable st1 = observable st2 →
  observable (run E sched st1) = observable (run E sched st2).
Proof.
  revert st1 st2. induction sched as [|a sched IH]; intros st1 st2 H; simpl.
  - assumption.
  - apply IH, step_obs, H.
Qed.

Lemma preloadOne_obs (E : Env) (soundFile : string) (st1 st2 : State) :
  observable st1 = observable st2 →
  observable (preloadOne E st1 soundFile) =
    observable (preloadOne E st2 soundFile).
Proof.
  intros H. unfold preloadOne.
  destruct (loadSound_obs E soundFile st1 st2 H) as [Hr Hs].
  destruct (loadSound E soundFile st1) as [r1 s1].
  destruct (loadSound E soundFile st2) as [r2 s2].
  simpl in Hr, Hs. subst r2. destruct r1; obs_cong.
Qed.

Lemma preloadSounds_obs (E : Env) (order : list string) (st1 st2 : State) :
  observable st1 = observable st2 →
  observable (preloadSounds E order st1) =
    observable (preloadSounds E order st2).
Proof.
  intros H. unfold preloadSounds. rewrite !obs_logv.
  assert (observable (logv LogPreloading st1) =
          observable (logv LogPreloading st2)) as H1 by obs_cong.
  revert H1. generalize (logv LogPreloading st1) (logv LogPreloading st2).
  induction order as [|soundFile order IH]; intros s1 s2 Hs; simpl.
  - assumption.
  - apply IH, preloadOne_obs, Hs.
Qed.

Lemma main_obs (E : Env) (args1 args2 order : list string)
    (sched : list Action) :
  isHelpFlag args1 = isHelpFlag args2 →
  observable (main E args1 order sched) =
    observable (main E args2 order sched).
Proof.
  intros Hh. unfold main. rewrite Hh.
  destruct (isHelpFlag args2); [reflexivity |].
  set (s1 := emit _ (idleState (isVerboseFlag args1) _ _ _)).
  set (s2 := emit _ (idleState (isVerboseFlag args2) _ _ _)).
  assert (observable s1 = observable s2) as H by reflexivity.
  destruct (initSpeaker_obs E s1 s2 H) as [Hr Hs].
  destruct (initSpeaker E s1) as [r1 t1].
  destruct (initSpeaker E s2) as [r2 t2].
  simpl in Hr, Hs. subst r2.
  destruct r1 as [u | err]; [| obs_cong].
  apply run_obs, obs_emit, preloadSounds_obs, Hs.
Qed.

(** ** Preloading *)

Lemma loadSound_other (E : Env) (soundPath other : string) (st : State) :
  soundPath ≠ other →
  soundCache (loadSound E soundPath st).2 !! other = soundCache st !! other.
Proof.
  intros Hne. unfold loadSound. split_cases; try reflexivity.
  all: apply lookup_insert_ne; assumption.
Qed.


Lemma loadSound_fails_uncached (E : Env) (soundPath : string) (st : State) :
  loads E soundPath = false →
  soundCache (loadSound E soundPath st).2 = soundCache st.
Proof.
  unfold loadSound, loads. intros H. split_cases; reflexivity.
Qed.

Lemma loadSound_loads_cached (E : Env) (soundPath : string) (st : State) :
  loads E soundPath = true →
  is_Some (soundCache (loadSound E soundPath st).2 !! soundPath).
Proof.
  intros H. destruct (soundCache st !! soundPath) as [buffer |] eqn:Hc.
  - rewrite (loadSound_hit E soundPath st buffer Hc). simpl. eauto.
  - destruct (loadSound_miss_loads E soundPath st Hc H) as (b & f & _ & Hs).
    rewrite Hs, lookup_insert_eq. eauto.
Qed.

Lemma preloadOne_cache (E : Env) (st : State) (soundFile : string) :
  soundCache (preloadOne E st soundFile) =
    soundCache (loadSound E soundFile st).2.
Proof.
  unfold preloadOne, logv.
  destruct (loadSound E soundFile st) as [[ok | err] st1]; simpl;
    [reflexivity |].
  destruct (verbose st1); reflexivity.
Qed.




Lemma preload_fold_keeps (E : Env) (order : list string) (st : State)
    (other : string) :
  is_Some (soundCache st !! other) →
  is_Some (soundCache (foldl (preloadOne E) st order) !! other).
Proof.
  revert st. induction order as [|f order IH]; intros st H; simpl.
  - exact H.
  - apply IH. rewrite preloadOne_cache. apply loadSound_keeps, H.
Qed.

(** Every file of the order that loads is cached in the end. *)
Lemma preload_fold_cached (E : Env) (order : list string) (st : State)
    (soundFile : string) :
  soundFile ∈ order → loads E soundFile = true →
  is_Some (soundCache (foldl (preloadOne E) st order) !! soundFile).
Proof.
  intros Hin Hl. revert st.
  induction order as [|f order IH]; intros st; simpl.
  - inversion Hin.
  - apply elem_of_cons in Hin as [<- | Hin].
    + apply preload_fold_keeps. rewrite preloadOne_cache.
      apply loadSound_loads_cached, Hl.
    + apply IH, Hin.
Qed.



Lemma phonicsMap_files (char : Z) (soundFile : string) :
  phonicsMap !! char = Some soundFile → soundFile ∈ phonicsFiles.
Proof.
  intros H. apply elem_of_list_to_map_2 in H.
  unfold phonicsFiles. apply list_elem_of_fmap. exists (char, soundFile).
  auto.
Qed.

(** ** Dispatch inside the event loop *)

(** What [handleEvent] sends on the queue is what [dispatch] finds for the
    key character of a key-down event. *)
Lemma handleEvent_sends (E : Env) (ev : HookEvent) (st : State) :
  sends (trace (handleEvent E ev st)) =
    sends (trace st) ++
      (if Kind ev =? 3 then
         match dispatch E (Keychar ev) with
         | Some soundFile =>
             [(soundFile, (length (playQueue st) <? playQueue_cap)%nat)]
         | None => []
         end
       else []).
Proof.
  unfold handleEvent, dispatch.
  set (st1 := logv _ st).
  assert (playQueue st1 = playQueue st ∧ sends (trace st1) = sends (trace st))
    as [Hq Hs].
  { unfold st1, logv. destruct (verbose st); simpl; trace_simpl; auto. }
  clearbody st1.
  destruct (Kind ev =? 3); [| rewrite app_nil_r; exact Hs].
  destruct (Keychar ev =? 0); cbn [negb].
  { unfold logv. destruct (verbose st1); simpl; trace_simpl; exact Hs. }
  unfold handleKeyPress.
  destruct (phonicsMap !! _) as [soundFile |];
    [| rewrite app_nil_r; exact Hs].
  unfold logv, chan_trySend.
  destruct (verbose st1) eqn:Hv; simpl; rewrite Hq;
    destruct (length (playQueue st) <? playQueue_cap)%nat; simpl;
    rewrite ?Hv; simpl; trace_simpl; unfold sends in Hs; rewrite Hs;
    reflexivity.
Qed.

(** A key character that dispatch does not match leaves everything but the
    diagnostics alone. *)
Lemma handleEvent_nomatch (E : Env) (ev : HookEvent) (st : State) :
  dispatch E (Keychar ev) = None →
  observable (handleEvent E ev st) = observable st.
Proof.
  unfold dispatch, handleEvent. intros Hd.
  destruct (Kind ev =? 3); [| apply obs_logv].
  destruct (Keychar ev =? 0); cbn [negb].
  - rewrite !obs_logv. reflexivity.
  - unfold handleKeyPress. rewrite Hd. apply obs_logv.
Qed.

(** ** The start of [main] keeps the speaker idle *)

Lemma loadSound_inTurn (E : Env) (soundPath : string) (st : State) :
  inTurn st → inTurn (loadSound E soundPath st).2.
Proof.
  intros Hin.
  destruct (loadSound_trace E soundPath st) as (evs & Htr & Hevs).
  destruct (loadSound_frame E soundPath st) as (_ & _ & _ & Hm & Hp & _).
  unfold inTurn in *. rewrite Hm, Hp, Htr, audio_quiet; [exact Hin |].
  eapply Forall_impl; [exact Hevs |]. intros ev [-> | ->]; exact I.
Qed.

Lemma initSpeaker_inTurn (E : Env) (st : State) :
  inTurn st → inTurn (initSpeaker E st).2.
Proof.
  intros Hin. unfold initSpeaker.
  destruct (speakerInitialized st); [exact Hin |].
  destruct (speaker_Init E _ _); unfold inTurn in *; simpl;
    rewrite (audio_quiet (trace st) [EvSpeakerInit _ _]);
    try exact Hin; repeat constructor.
Qed.

Lemma inTurn_emit_log (m : LogMsg) (st : State) :
  inTurn st → inTurn (emit (EvLog m) st).
Proof.
  intros Hin. unfold inTurn in *; simpl.
  rewrite (audio_quiet (trace st) [EvLog m]); [exact Hin |].
  repeat constructor.
Qed.

Lemma preloadSounds_inTurn (E : Env) (order : list string) (st : State) :
  inTurn st → inTurn (preloadSounds E order st).
Proof.
  intros Hin. unfold preloadSounds. apply inTurn_logv.
  assert (inTurn (logv LogPreloading st)) as H by apply inTurn_logv, Hin.
  revert H. generalize (logv LogPreloading st).
  induction order as [|f order IH]; intros s Hs; simpl; [exact Hs |].
  apply IH. unfold preloadOne.
  pose proof (loadSound_inTurn E f s Hs) as H1.
  destruct (loadSound E f s) as [[ok | err] s1]; simpl in H1;
    [exact H1 | apply inTurn_logv, H1].
Qed.

Lemma main_inTurn (E : Env) (args order : list string)
    (sched : list Action) :
  inTurn (main E args order sched).
Proof.
  unfold main.
  assert (inTurn (idleState (isVerboseFlag args) false [] ∅)) as H0
    by reflexivity.
  destruct (isHelpFlag args).
  { unfold inTurn; simpl. reflexivity. }
  pose proof (initSpeaker_inTurn E _ (inTurn_emit_log LogBanner _ H0)) as H1.
  destruct (initSpeaker E _) as [[u | err] s1]; simpl in H1.
  - apply run_inTurn, inTurn_emit_log, preloadSounds_inTurn, H1.
  - unfold inTurn in *; simpl.
    rewrite (audio_quiet (trace s1) [EvLog _]); [exact H1 |].
    repeat constructor.
Qed.

Lemma inTurn_facts (st : State) :
  inTurn st →
  audio (trace st) ≠ OutOfTurn ∧
  (length (mixer st) ≤ 1)%nat ∧
  (player st = AtRange ↔ mixer st = []) ∧
  (∀ done, player st = AwaitDone done →
     ∃ v, mixer st = [v] ∧ v_done v = done ∧
          audio (trace st) = Sounding (v_path v)).
Proof.
  unfold inTurn.
  destruct (mixer st) as [|v [|w m]]; destruct (player st) as [|d];
    try contradiction.
  - intros Ha. rewrite Ha. repeat split; try discriminate; auto.
  - intros [-> Ha]. rewrite Ha. repeat split; try discriminate; simpl; auto.
    intros done [= <-]. eauto.
Qed.

(** ** The cause of a failed load *)

Lemma loadSound_err_cause (E : Env) (soundPath : string) (st st1 : State)
    (err : error) :
  loadSound E soundPath st = (Err err, st1) →
  soundFiles_Open E ("sounds/" +:+ soundPath) = Err err ∨
  (∃ file, soundFiles_Open E ("sounds/" +:+ soundPath) = Ok file ∧
     ((HasSuffix soundPath ".mp3" = true ∧ mp3_Decode E file = Err err) ∨
      (HasSuffix soundPath ".mp3" = false ∧
       HasSuffix soundPath ".wav" = true ∧ wav_Decode E file = Err err) ∨
      (HasSuffix soundPath ".mp3" = false ∧
       HasSuffix soundPath ".wav" = false ∧
       err = "unsupported format: " +:+ soundPath))).
Proof.
  unfold loadSound. intros H. split_cases; eauto 10.
Qed.

Lemma loadSound_fails (E : Env) (soundPath : string) (st : State) :
  soundCache st !! soundPath = None → loads E soundPath = false →
  ∃ err, (loadSound E soundPath st).1 = Err err.
Proof.
  unfold loadSound, loads. intros Hmiss H. rewrite Hmiss.
  split_cases; eauto.
Qed.

(** A load that misses the cache depends on the environment only. *)
Lemma loadSound_miss_again (E : Env) (soundPath : string) (st st' : State) :
  soundCache st !! soundPath = None →
  soundCache st' !! soundPath = None →
  (loadSound E soundPath st').1 = (loadSound E soundPath st).1 ∧
  ∃ evs, trace (loadSound E soundPath st).2 = trace st ++ evs ∧
         trace (loadSound E soundPath st').2 = trace st' ++ evs ∧
         hd_error evs = Some (EvOpen ("sounds/" +:+ soundPath)).
Proof.
  unfold loadSound. intros H1 H2. rewrite H1, H2.
  split_cases; split; try reflexivity;
    first [ eexists [_; _]; rewrite <- !app_assoc; repeat split; reflexivity
          | eexists [_]; repeat split; reflexivity ].
Qed.

(** The trace readers do not see diagnostics. *)
Lemma readers_withoutLogs (tr : list Event) :
  sends (withoutLogs tr) = sends tr ∧
  received (withoutLogs tr) = received tr ∧
  played (withoutLogs tr) = played tr ∧
  fileIO (withoutLogs tr) = fileIO tr.
Proof.
  unfold sends, received, played, fileIO, withoutLogs.
  induction tr as [|ev tr (IH1 & IH2 & IH3 & IH4)]; simpl; [auto |].
  destruct ev as [| f [|] | | | | | | |]; simpl; repeat split;
    try apply (f_equal (cons _));
    first [exact IH1 | exact IH2 | exact IH3 | exact IH4].
Qed.

(** ** The cache never loses an entry *)

Lemma loadSound_keeps_entry (E : Env) (soundPath other : string) (st : State)
    (buffer : Buffer) :
  soundCache st !! other = Some buffer →
  soundCache (loadSound E soundPath st).2 !! other = Some buffer.
Proof.
  intros H. destruct (decide (soundPath = other)) as [-> | Hne].
  - rewrite (loadSound_hit E other st buffer H). exact H.
  - rewrite loadSound_other; assumption.
Qed.

Lemma logv_cache (m : LogMsg) (st : State) :
  soundCache (logv m st) = soundCache st.
Proof. unfold logv. destruct (verbose st); reflexivity. Qed.

Lemma handleEvent_cache (E : Env) (ev : HookEvent) (st : State) :
  soundCache (handleEvent E ev st) = soundCache st.
Proof.
  unfold handleEvent.
  destruct (Kind ev =? 3); [| apply logv_cache].
  destruct (negb (Keychar ev =? 0)); [| rewrite !logv_cache; reflexivity].
  unfold handleKeyPress.
  destruct (phonicsMap !! _) as [soundFile |]; [| apply logv_cache].
  destruct (chan_trySend _ _ _) as [q [|]]; cbn [soundCache emit];
    rewrite ?logv_cache; cbn [soundCache emit set_playQueue];
    rewrite !logv_cache; reflexivity.
Qed.

Lemma step_keeps_entry (E : Env) (a : Action) (st : State) (other : string)
    (buffer : Buffer) :
  soundCache st !! other = Some buffer →
  soundCache (step E a st) !! other = Some buffer.
Proof.
  intros H. unfold step. destruct (exited st); [exact H |].
  destruct a as [ev | | |].
  - rewrite handleEvent_cache. exact H.
  - exact H.
  - unfold soundPlayer.
    destruct (player st); [| exact H].
    destruct (chan_recv (playQueue st)) as [[soundFile q] |]; [| exact H].
    destruct (playSound_frame E soundFile
                (emit (EvRecv soundFile) (set_playQueue q st)))
      as (_ & _ & _ & ->).
    apply loadSound_keeps_entry. exact H.
  - unfold speakerUpdate.
    destruct (firstDrained (mixer st)) as [[v rest] |].
    + destruct (player st) as [| done]; [exact H |].
      destruct (Nat.eqb done (v_done v)); exact H.
    + destruct (mixer st); exact H.
Qed.

Lemma run_keeps_entry (E : Env) (sched : list Action) (st : State)
    (other : string) (buffer : Buffer) :
  soundCache st !! other = Some buffer →
  soundCache (run E sched st) !! other = Some buffer.
Proof.
  revert st. induction sched as [|a sched IH]; intros st H; simpl.
  - exact H.
  - apply IH, step_keeps_entry, H.
Qed.

(** ** The scenarios of the specification, run *)

(** Pressing [a] once: [a.wav] is received and played once. *)
Example scenario_press_a :
  let st := run Demo.env
              [AHook (Demo.keyDown (rune "a")); APlayer;
               ASpeaker; ASpeaker; ASpeaker; APlayer]
              Demo.start in
  received (trace st) = ["a.wav"] ∧
  fst <$> played (trace st) = ["a.wav"] ∧
  audio (trace st) = Silent.
Proof. vm_compute. auto. Qed.

(** Pressing [a] 150 times with no consumer turn: 100 sends are accepted,
    50 are dropped. *)
Example scenario_backpressure :
  let st := run Demo.env (replicate 150 (AHook (Demo.keyDown (rune "a"))))
              Demo.start in
  length (playQueue st) = 100%nat ∧
  length (accepted (trace st)) = 100%nat ∧
  length (sends (trace st)) = 150%nat.
Proof. vm_compute. auto. Qed.

(** Pressing [5]: nothing is sent, nothing is played. *)
Example scenario_digit :
  run Demo.env [AHook (Demo.keyDown (rune "5")); APlayer] Demo.start
  = Demo.start.
Proof. vm_compute. reflexivity. Qed.

(** Pressing [c], whose file is corrupt, then [a]: [c.wav] is skipped and
    [a.wav] is played. *)
Example scenario_corrupt :
  let st := run Demo.env
              [AHook (Demo.keyDown (rune "c")); AHook (Demo.keyDown (rune "a"));
               APlayer; APlayer]
              Demo.start in
  received (trace st) = ["c.wav"; "a.wav"] ∧
  fst <$> played (trace st) = ["a.wav"].
Proof. vm_compute. auto. Qed.

(** * The claims *)

(** C1. The playback queue has capacity 100 and a send on it never waits:
    when the queue already holds 100 items, the send that [handleKeyPress]
    tries for a new sound identifier is given up (accepted = false), the
    identifier is discarded and the queue is what it was, the attempt being
    all that happened; and along every run a queue of at most 100 items
    stays at most 100 items long. *)
Theorem playQueue_full_drops (char : Z) (soundFile : string) (st : State) :
  phonicsMap !! char = Some soundFile →
  length (playQueue st) = playQueue_cap →
  playQueue_cap = 100%nat ∧
  chan_trySend playQueue_cap (playQueue st) soundFile
    = (playQueue st, false) ∧
  playQueue (handleKeyPress char st) = playQueue st ∧
  sends (trace (handleKeyPress char st))
    = sends (trace st) ++ [(soundFile, false)] ∧
  observable (handleKeyPress char st)
    = observable (emit (EvSend soundFile false) st) ∧
  ∀ (E : Env) (sched : list Action) (st0 : State),
    (length (playQueue st0) ≤ playQueue_cap)%nat →
    (length (playQueue (run E sched st0)) ≤ playQueue_cap)%nat.
Proof.
  intros Hchar Hfull.
  assert (chan_trySend playQueue_cap (playQueue st) soundFile
          = (playQueue st, false)) as Hsend.
  { unfold chan_trySend. rewrite Hfull, Nat.ltb_irrefl. reflexivity. }
  split; [reflexivity |]. split; [exact Hsend |].
  assert (∀ s, playQueue s = playQueue st →
            handleKeyPress char s
            = logv LogQueueFull
                (emit (EvSend soundFile false)
                   (set_playQueue (playQueue st)
                      (logv (LogKeyPressed char soundFile) s)))) as Hk.
  { intros s Hs. unfold handleKeyPress. rewrite Hchar.
    replace (playQueue (logv (LogKeyPressed char soundFile) s))
      with (playQueue st)
      by (unfold logv; destruct (verbose s); simpl; congruence).
    rewrite Hsend. reflexivity. }
  rewrite (Hk st eq_refl).
  repeat split.
  - unfold logv. destruct (verbose st) eqn:Hv; simpl; rewrite ?Hv;
      reflexivity.
  - unfold logv. destruct (verbose st) eqn:Hv; simpl; rewrite ?Hv; simpl;
      trace_simpl; reflexivity.
  - rewrite obs_logv. apply obs_emit.
    transitivity (observable (logv (LogKeyPressed char soundFile) st));
      [| apply obs_logv].
    unfold logv, observable. destruct (verbose st); reflexivity.
  - intros E sched st0. apply run_queue_bound.
Qed.

Lemma playQueue_full_drops_witness :
  let st := idleState true true (replicate 100 "a.wav") ∅ in
  playQueue (handleKeyPress (rune "b") st) = replicate 100 "a.wav" ∧
  sends (trace (handleKeyPress (rune "b") st)) = [("b.wav", false)].
Proof.
  pose proof (playQueue_full_drops (rune "b") "b.wav"
                (idleState true true (replicate 100 "a.wav") ∅)
                ltac:(vm_compute; reflexivity)
                ltac:(vm_compute; reflexivity))
    as (_ & _ & Hq & Hs & _).
  split; [exact Hq | exact Hs].
Defined.

(** C3. Playback is one clip after the other: along every run of the
    program, from an idle start or from the start of [main], the speaker
    holds at most one clip, and holds one exactly while the consumer waits
    inside [playSound] for that clip's done signal; while it waits the
    consumer takes nothing from the queue; and in the trace no clip is
    started and no item is dequeued between the start of a clip and its
    completion, every frame written to the device coming from the one clip
    that is sounding. *)
Theorem playback_one_at_a_time (E : Env) (sched : list Action) (v si : bool)
    (q : list string) (c : gmap string Buffer) (args order : list string)
    (st : State) :
  st = run E sched (idleState v si q c) ∨ st = main E args order sched →
  audio (trace st) ≠ OutOfTurn ∧
  (length (mixer st) ≤ 1)%nat ∧
  (player st = AtRange ↔ mixer st = []) ∧
  (∀ done, player st = AwaitDone done →
     soundPlayer E st = st ∧
     ∃ voice, mixer st = [voice] ∧ v_done voice = done ∧
              audio (trace st) = Sounding (v_path voice)).
Proof.
  intros Hst.
  assert (inTurn st) as Hin.
  { destruct Hst as [-> | ->].
    - apply run_inTurn. reflexivity.
    - apply main_inTurn. }
  destruct (inTurn_facts st Hin) as (H1 & H2 & H3 & H4).
  repeat split; try assumption; try apply H3.
  - unfold soundPlayer. rewrite H. reflexivity.
  - apply H4. assumption.
Qed.

Lemma playback_one_at_a_time_witness :
  let st := run Demo.env
              [AHook (Demo.keyDown 65); AHook (Demo.keyDown 98);
               APlayer; APlayer; ASpeaker; APlayer]
              Demo.start in
  audio (trace st) ≠ OutOfTurn ∧ (length (mixer st) ≤ 1)%nat.
Proof.
  pose proof (playback_one_at_a_time Demo.env
                [AHook (Demo.keyDown 65); AHook (Demo.keyDown 98);
                 APlayer; APlayer; ASpeaker; APlayer]
                false true [] ∅ [] [] _ (or_introl eq_refl))
    as (H1 & H2 & _).
  split; [exact H1 | exact H2].
Defined.

(** C4. [loadSound] is idempotent: after a call for an identifier has
    succeeded, the buffer it returned is the entry of the cache for that
    identifier; the next call for it succeeds with the very same buffer, so
    with identical decoded sample data, and is served from the cache: what
    it returns is that entry, it leaves the state as it is, opening and
    decoding nothing, and it does not depend on the asset any more, giving
    the same buffer whatever the file system and the decoders have become;
    and so does a call after any further run of the program, the entry
    never leaving the cache. *)
Theorem loadSound_idempotent (E : Env) (soundPath : string) (st st1 : State)
    (buffer : Buffer) (format : Format) :
  loadSound E soundPath st = (Ok (buffer, format), st1) →
  (∃ buffer2 format2,
     loadSound E soundPath st1 = (Ok (buffer2, format2), st1) ∧
     buffer2 = buffer ∧
     buf_data buffer2 = buf_data buffer ∧
     fileIO (trace (loadSound E soundPath st1).2) = fileIO (trace st1)) ∧
  (∀ (sched : list Action),
     let st2 := run E sched st1 in
     loadSound E soundPath st2 = (Ok (buffer, mkFormat 44100 2 2), st2)) ∧
  soundCache st1 !! soundPath = Some buffer ∧
  (soundCache st !! soundPath = None →
   soundCache st1 = <[soundPath := buffer]> (soundCache st)) ∧
  (∀ other, other ≠ soundPath →
     soundCache st1 !! other = soundCache st !! other) ∧
  (∀ (E' : Env) (s : State) (cached : Buffer),
     soundCache s !! soundPath = Some cached →
     loadSound E' soundPath s = (Ok (cached, mkFormat 44100 2 2), s)) ∧
  (∀ (E' : Env) (sched : list Action),
     let st2 := run E' sched st1 in
     soundCache st2 !! soundPath = Some buffer ∧
     loadSound E' soundPath st2 = (Ok (buffer, mkFormat 44100 2 2), st2)).
Proof.
  intros Hfirst.
  pose proof (loadSound_ok_cached E soundPath st st1 buffer format Hfirst)
    as Hcached.
  pose proof (loadSound_hit E soundPath st1 buffer Hcached) as Hsecond.
  split; [| split; [| split; [| split; [| split; [| split]]]]].
  - exists buffer, (mkFormat 44100 2 2). rewrite Hsecond. auto.
  - intros sched st2. apply loadSound_hit, run_keeps_entry, Hcached.
  - exact Hcached.
  - intros Hmiss.
    destruct (loads E soundPath) eqn:Hl.
    + destruct (loadSound_miss_loads E soundPath st Hmiss Hl)
        as (b & f & Hr & Hs).
      rewrite Hfirst in Hr, Hs. simpl in Hr, Hs.
      injection Hr as -> _. exact Hs.
    + destruct (loadSound_fails E soundPath st Hmiss Hl) as [err Herr].
      rewrite Hfirst in Herr. discriminate.
  - intros other Hne.
    pose proof (loadSound_other E soundPath other st
                  (fun H => Hne (eq_sym H))) as Ho.
    rewrite Hfirst in Ho. exact Ho.
  - intros E' s cached Hs. apply loadSound_hit, Hs.
  - intros E' sched st2.
    pose proof (run_keeps_entry E' sched st1 soundPath buffer Hcached) as Hk.
    split; [exact Hk | apply loadSound_hit, Hk].
Qed.

Lemma loadSound_idempotent_witness :
  let st1 := (loadSound Demo.env "a.wav" Demo.start).2 in
  let clip := mkBuffer (mkFormat 44100 2 2) [(1, 2); (3, 4)] in
  (∃ buffer2 format2,
     loadSound Demo.env "a.wav" st1 = (Ok (buffer2, format2), st1) ∧
     buffer2 = clip ∧
     buf_data buffer2 = [(1, 2); (3, 4)] ∧
     fileIO (trace (loadSound Demo.env "a.wav" st1).2) = fileIO (trace st1)) ∧
  soundCache st1 !! "a.wav" = Some clip ∧
  (loadSound Mute.env "a.wav" st1).1 = Ok (clip, mkFormat 44100 2 2).
Proof.
  pose proof (loadSound_idempotent Demo.env "a.wav" Demo.start
                (loadSound Demo.env "a.wav" Demo.start).2
                (mkBuffer (mkFormat 44100 2 2) [(1, 2); (3, 4)])
                (mkFormat 44100 2 2)
                ltac:(vm_compute; reflexivity))
    as (H1 & _ & H3 & _ & _ & H6 & _).
  split; [exact H1 |]. split; [exact H3 |].
  exact (f_equal fst (H6 Mute.env _ _ H3)).
Defined.

(** C5, as the claim states it, fails: [b.wav] of the example directory is
    a 22050 Hz mono file; on a cache miss [loadSound] stores and returns it
    at 22050 Hz mono, not in the canonical 44100 Hz stereo format. *)
Lemma loadSound_not_canonical :
  let st := Demo.start in
  let buffer := mkBuffer (mkFormat 22050 1 2) [(5, 5); (6, 6)] in
  soundCache st !! "b.wav" = None ∧
  (loadSound Demo.env "b.wav" st).1 = Ok (buffer, mkFormat 22050 1 2) ∧
  soundCache (loadSound Demo.env "b.wav" st).2 !! "b.wav" = Some buffer ∧
  buf_f buffer ≠ canonicalFormat.
Proof.
  repeat split; try (vm_compute; reflexivity). discriminate.
Qed.

(** C5, amended. On a cache miss [loadSound] opens the identifier's asset
    under [sounds/], decodes it with the MP3 decoder when the name ends in
    [.mp3] and with the WAV decoder when it ends in [.wav], puts the decoded
    frames in a buffer that keeps the format the decoder reports (nothing is
    converted), stores that buffer under the identifier and returns it with
    that format; so the stored clip is in the canonical format exactly when
    the decoder reports the canonical format. *)
Theorem loadSound_miss_decodes (E : Env) (soundPath : string) (st : State)
    (file : File) (format : Format) (frames : list Sample) :
  soundCache st !! soundPath = None →
  soundFiles_Open E ("sounds/" +:+ soundPath) = Ok file →
  (HasSuffix soundPath ".mp3" = true ∧
   mp3_Decode E file = Ok (format, frames)) ∨
  (HasSuffix soundPath ".mp3" = false ∧
   HasSuffix soundPath ".wav" = true ∧
   wav_Decode E file = Ok (format, frames)) →
  let buffer := mkBuffer format frames in
  loadSound E soundPath st
    = (Ok (buffer, format),
       set_soundCache (<[soundPath := buffer]> (soundCache st))
         (emit (EvDecode soundPath)
            (emit (EvOpen ("sounds/" +:+ soundPath)) st))) ∧
  soundCache (loadSound E soundPath st).2 !! soundPath = Some buffer ∧
  buf_f buffer = format ∧
  buf_data buffer = frames ∧
  (buf_f buffer = canonicalFormat ↔ format = canonicalFormat).
Proof.
  intros Hmiss Hopen Hdec buffer.
  assert (loadSound E soundPath st
          = (Ok (buffer, format),
             set_soundCache (<[soundPath := buffer]> (soundCache st))
               (emit (EvDecode soundPath)
                  (emit (EvOpen ("sounds/" +:+ soundPath)) st)))) as Hload.
  { unfold loadSound. rewrite Hmiss, Hopen.
    destruct Hdec as [[Hmp3 Hd] | (Hmp3 & Hwav & Hd)].
    - rewrite Hmp3, Hd. reflexivity.
    - rewrite Hmp3, Hwav, Hd. reflexivity. }
  rewrite Hload. repeat split; try assumption; try (simpl; tauto).
  simpl. apply lookup_insert_eq.
Qed.

Lemma loadSound_miss_decodes_witness :
  let st := Demo.start in
  let buffer := mkBuffer (mkFormat 22050 1 2) [(5, 5); (6, 6)] in
  soundCache (loadSound Demo.env "b.wav" st).2 !! "b.wav" = Some buffer ∧
  buf_f buffer = mkFormat 22050 1 2.
Proof.
  pose proof (loadSound_miss_decodes Demo.env "b.wav"
                Demo.start
                (Demo.wavBytes 1 22050 [5; 0; 6; 0])
                (mkFormat 22050 1 2) [(5, 5); (6, 6)]
                ltac:(vm_compute; reflexivity)
                ltac:(vm_compute; reflexivity)
                ltac:(right; vm_compute; auto))
    as (_ & H2 & H3 & _).
  split; [exact H2 | exact H3].
Defined.

(** C6, as the claim states it, fails: the Kelvin sign U+212A and the
    dotted capital I U+0130 are none of the 26 Latin letters in either
    case, yet Go lower-cases them to [k] and [i], so that their key-down
    events dispatch to [k.wav] and [i.wav] and send those files. *)
Lemma dispatch_beyond_latin :
  isLatinLetter 0x212A = false ∧
  dispatch Demo.env 0x212A = Some "k.wav" ∧
  isLatinLetter 0x130 = false ∧
  dispatch Demo.env 0x130 = Some "i.wav" ∧
  sends (trace (handleEvent Demo.env (Demo.keyDown 0x212A) Demo.start))
    = [("k.wav", true)].
Proof. repeat split; vm_compute; reflexivity. Qed.

(** C6, amended. Dispatch is case-insensitive over the 26 Latin letters:
    the table has 26 entries, one per lower-case letter, each naming the
    file [<letter>.wav]; a letter in upper or lower case leads to the file
    of the lower-case letter; a character that is no Latin letter, and that
    is ASCII or has a lower case above ASCII (every digit, punctuation mark
    and control character is such), leads to no match, and its key-down
    event leaves the queue alone and tries no send; what a key-down event
    sends is what dispatch finds; and in all, a character other than 0
    leads to the file of its Unicode lower case when that is a lower-case
    Latin letter, and to nothing otherwise. *)
Theorem dispatch_case_insensitive (E : Env) (char : Z) :
  (size phonicsMap = 26%nat ∧
   ∀ r soundFile, phonicsMap !! r = Some soundFile ↔
                  isLowerLatin r = true ∧ soundFile = letterFile r) ∧
  (isLowerLatin char = true →
   dispatch E char = Some (letterFile char) ∧
   dispatch E (char - 32) = Some (letterFile char)) ∧
  (isLatinLetter char = false →
   0 ≤ char ≤ MaxASCII ∨ MaxASCII < unicode_ToLower E (validRune char) →
   dispatch E char = None ∧
   ∀ (kind rawcode keycode : Z) (st : State),
     let st' := handleEvent E (mkHookEvent kind rawcode char keycode) st in
     playQueue st' = playQueue st ∧ sends (trace st') = sends (trace st)) ∧
  (∀ (ev : HookEvent) (st : State),
     sends (trace (handleEvent E ev st)) =
       sends (trace st) ++
         (if Kind ev =? 3 then
            match dispatch E (Keychar ev) with
            | Some soundFile =>
                [(soundFile, (length (playQueue st) <? playQueue_cap)%nat)]
            | None => []
            end
          else [])) ∧
  (char ≠ 0 →
   let lowered := validRune (unicode_ToLower E (validRune char)) in
   dispatch E char
     = if isLowerLatin lowered then Some (letterFile lowered) else None).
Proof.
  assert (isLatinLetter char = false →
          0 ≤ char ≤ MaxASCII ∨
          MaxASCII < unicode_ToLower E (validRune char) →
          dispatch E char = None) as Hnone.
  { intros Hno Hcase. unfold dispatch.
    destruct (char =? 0); [reflexivity |].
    apply phonicsMap_other.
    destruct Hcase as [Hascii | Hhigh]; [| apply lowerKeychar_high, Hhigh].
    rewrite lowerKeychar_ascii by exact Hascii.
    unfold isLatinLetter, isUpperLatin, isLowerLatin in *.
    destruct ((65 <=? char) && (char <=? 90)); [discriminate |].
    exact Hno. }
  split; [| split; [| split; [| split]]].
  - split; [vm_compute; reflexivity |].
    intros r soundFile. rewrite phonicsMap_lookup.
    destruct (isLowerLatin r); split;
      [intros [= <-]; auto | intros [_ ->]; reflexivity
      | discriminate | intros [[=] _]].
  - intros Hlow. unfold isLowerLatin, MaxASCII in *.
    unfold dispatch.
    destruct (Z.eqb_spec char 0); [lia |].
    destruct (Z.eqb_spec (char - 32) 0); [lia |].
    rewrite !lowerKeychar_ascii by (unfold MaxASCII; lia).
    unfold isUpperLatin.
    destruct (Z.leb_spec 65 char); [| lia].
    destruct (Z.leb_spec char 90); simpl; [lia |].
    destruct (Z.leb_spec 65 (char - 32)); [| lia].
    destruct (Z.leb_spec (char - 32) 90); simpl; [| lia].
    replace (char - 32 + 32) with char by lia.
    split; apply phonicsMap_letter; unfold isLowerLatin; exact Hlow.
  - intros Hno Hcase. split; [exact (Hnone Hno Hcase) |].
    intros kind rawcode keycode st st'.
    pose proof (handleEvent_nomatch E (mkHookEvent kind rawcode char keycode)
                  st (Hnone Hno Hcase)) as Hobs.
    fold st' in Hobs.
    apply observable_fields in Hobs as (_ & Hq & _ & _ & _ & _ & _ & Ht).
    split; [exact Hq |].
    destruct (readers_withoutLogs (trace st')) as [<- _].
    destruct (readers_withoutLogs (trace st)) as [<- _].
    rewrite Ht. reflexivity.
  - intros ev st. apply handleEvent_sends.
  - intros Hchar lowered. unfold dispatch.
    destruct (Z.eqb_spec char 0) as [H0 | _]; [contradiction |].
    rewrite phonicsMap_lookup.
    unfold lowerKeychar, strings_ToLower_rune. fold lowered.
    destruct (Z_lt_le_dec MaxASCII lowered) as [Hhigh | Hlow].
    + rewrite (utf8_lead_high lowered Hhigh).
      unfold isLowerLatin, MaxASCII in *.
      destruct (Z.leb_spec lowered 122); [lia |].
      rewrite andb_false_r. reflexivity.
    + rewrite (utf8_lead_ascii lowered Hlow). reflexivity.
Qed.

Lemma dispatch_case_insensitive_witness :
  (dispatch Demo.env (rune "a") = Some "a.wav" ∧
   dispatch Demo.env (rune "A") = Some "a.wav") ∧
  dispatch Demo.env (rune "5") = None ∧
  dispatch Demo.env 0x212A = Some "k.wav".
Proof.
  split; [| split].
  - exact (proj1 (proj2 (dispatch_case_insensitive Demo.env (rune "a")))
             ltac:(vm_compute; reflexivity)).
  - exact (proj1 (proj1 (proj2 (proj2
             (dispatch_case_insensitive Demo.env (rune "5"))))
             ltac:(vm_compute; reflexivity)
             ltac:(left; vm_compute; split; discriminate))).
  - exact (proj2 (proj2 (proj2 (proj2
             (dispatch_case_insensitive Demo.env 0x212A))))
             ltac:(discriminate)).
Defined.

(** C7. When the asset of an identifier is missing, or is of an unsupported
    or undecodable encoding, [loadSound] returns an error, which is the
    error of the open, the error of the decoder, or [unsupported format]
    with the name; and the consumer, having received such an identifier,
    hands nothing to the speaker, stays at its receive with the rest of the
    queue, leaves cache and process as they were, and goes on to receive
    the next queued identifier. *)
Theorem failed_load_is_skipped (E : Env) (soundFile : string)
    (q : list string) (st : State) :
  player st = AtRange →
  playQueue st = soundFile :: q →
  soundCache st !! soundFile = None →
  loads E soundFile = false →
  (∃ err,
     (loadSound E soundFile st).1 = Err err ∧
     (soundFiles_Open E ("sounds/" +:+ soundFile) = Err err ∨
      ∃ file, soundFiles_Open E ("sounds/" +:+ soundFile) = Ok file ∧
        ((HasSuffix soundFile ".mp3" = true ∧ mp3_Decode E file = Err err) ∨
         (HasSuffix soundFile ".mp3" = false ∧
          HasSuffix soundFile ".wav" = true ∧ wav_Decode E file = Err err) ∨
         (HasSuffix soundFile ".mp3" = false ∧
          HasSuffix soundFile ".wav" = false ∧
          err = "unsupported format: " +:+ soundFile)))) ∧
  let st' := soundPlayer E st in
  player st' = AtRange ∧
  playQueue st' = q ∧
  mixer st' = mixer st ∧
  played (trace st') = played (trace st) ∧
  received (trace st') = received (trace st) ++ [soundFile] ∧
  soundCache st' = soundCache st ∧
  exited st' = exited st ∧
  (∀ next q', q = next :: q' →
     received (trace (soundPlayer E st'))
       = received (trace st) ++ [soundFile; next]).
Proof.
  intros Hp Hq Hmiss Hloads.
  split.
  { destruct (loadSound_fails E soundFile st Hmiss Hloads) as [err Herr].
    exists err. split; [exact Herr |].
    destruct (loadSound E soundFile st) as [r s1] eqn:Hload.
    simpl in Herr. subst r.
    exact (loadSound_err_cause E soundFile st s1 err Hload). }
  intros st'.
  set (st0 := emit (EvRecv soundFile) (set_playQueue q st)).
  assert (st' = playSound E soundFile st0) as Hst'.
  { unfold st', soundPlayer. rewrite Hp, Hq. reflexivity. }
  assert (soundCache st0 !! soundFile = None) as Hmiss0 by exact Hmiss.
  destruct (loadSound_fails E soundFile st0 Hmiss0 Hloads) as [err Herr].
  pose proof (loadSound_frame E soundFile st0) as Hf.
  destruct (loadSound_trace E soundFile st0) as (evs & Htr & Hevs).
  pose proof (loadSound_fails_uncached E soundFile st0 Hloads) as Hc.
  assert (played evs = [] ∧ received evs = []) as [Hpl Hrc].
  { clear -Hevs. induction Hevs as [|ev evs [-> | ->] _ [IH1 IH2]];
      split; trace_simpl; auto. }
  assert (st' = logv (LogLoadFailed soundFile err)
                    (loadSound E soundFile st0).2) as Hshape.
  { rewrite Hst'. unfold playSound.
    destruct (loadSound E soundFile st0) as [r s1]; simpl in *.
    subst r. reflexivity. }
  destruct Hf as (Hv1 & Hsi1 & Hq1 & Hm1 & Hp1 & Hn1 & Hx1).
  assert (player st' = AtRange ∧ playQueue st' = q ∧
          mixer st' = mixer st ∧
          soundCache st' = soundCache st ∧ exited st' = exited st ∧
          played (trace st') = played (trace st) ∧
          received (trace st') = received (trace st) ++ [soundFile])
    as (H1 & H2 & H3 & H4 & H5 & H6 & H7).
  { rewrite Hshape. unfold logv.
    destruct (verbose _); simpl; rewrite ?Hp1, ?Hq1, ?Hm1, ?Hc, ?Hx1, Htr;
      simpl; trace_simpl; unfold played, received in Hpl, Hrc;
      rewrite ?Hpl, ?Hrc, ?app_nil_r; auto 10. }
  repeat split; try assumption.
  intros next q' ->.
  destruct (soundPlayer_queue E st') as (got & G1 & G2 & _).
  unfold soundPlayer, chan_recv in *. rewrite H1, H2 in *.
  set (st0' := emit (EvRecv next) (set_playQueue q' st')) in *.
  destruct (playSound_frame E next st0') as (_ & Hq' & _).
  rewrite Hq' in G1. simpl in G1.
  assert (got = [next]) as ->.
  { apply (f_equal length) in G1 as Hlen. rewrite length_app in Hlen.
    simpl in Hlen. destruct got as [|g [|g' got]]; simpl in *; try lia.
    congruence. }
  rewrite G2, H7, <- app_assoc. reflexivity.
Qed.

Lemma failed_load_is_skipped_witness :
  let st := idleState false true ["c.wav"; "a.wav"] ∅ in
  (loadSound Demo.env "c.wav" st).1
    = Err "wav: missing RIFF at the beginning" ∧
  player (soundPlayer Demo.env st) = AtRange ∧
  playQueue (soundPlayer Demo.env st) = ["a.wav"] ∧
  received (trace (soundPlayer Demo.env (soundPlayer Demo.env st)))
    = ["c.wav"; "a.wav"].
Proof.
  pose proof (failed_load_is_skipped Demo.env "c.wav" ["a.wav"]
                (idleState false true ["c.wav"; "a.wav"] ∅)
                ltac:(reflexivity) ltac:(reflexivity)
                ltac:(vm_compute; reflexivity)
                ltac:(vm_compute; reflexivity))
    as [_ (H1 & H2 & _ & _ & _ & _ & _ & H8)].
  split; [vm_compute; reflexivity |].
  split; [exact H1 |]. split; [exact H2 |].
  exact (H8 "a.wav" [] eq_refl).
Defined.



(** C9. The verbosity flag changes diagnostics only: from the same state,
    under every schedule of key events, consumer turns and speaker updates,
    the run with [verbose] set and the run with it unset agree on
    everything but the printed lines, in particular on the identifiers sent
    to the queue with the accept-or-drop outcome of each send, on the
    identifiers received and on the clips played; and so do two runs of
    [main], with and without [-v] or [--verbose]. *)
Theorem verbose_changes_only_logs (E : Env) (sched : list Action)
    (st : State) (prog : string) (order : list string) :
  (let on := run E sched (set_verbose true st) in
   let off := run E sched (set_verbose false st) in
   observable on = observable off ∧
   sends (trace on) = sends (trace off) ∧
   received (trace on) = received (trace off) ∧
   played (trace on) = played (trace off) ∧
   playQueue on = playQueue off ∧
   soundCache on = soundCache off) ∧
  (let plain := main E [prog] order sched in
   ∀ flag, flag = "-v" ∨ flag = "--verbose" →
     let on := main E [prog; flag] order sched in
     observable on = observable plain ∧
     sends (trace on) = sends (trace plain) ∧
     played (trace on) = played (trace plain)).
Proof.
  assert (∀ s1 s2, observable s1 = observable s2 →
            sends (trace s1) = sends (trace s2) ∧
            received (trace s1) = received (trace s2) ∧
            played (trace s1) = played (trace s2) ∧
            playQueue s1 = playQueue s2 ∧
            soundCache s1 = soundCache s2) as Hread.
  { intros s1 s2 H.
    apply observable_fields in H as (_ & Hq & Hc & _ & _ & _ & _ & Ht).
    destruct (readers_withoutLogs (trace s1)) as (<- & <- & <- & _).
    destruct (readers_withoutLogs (trace s2)) as (<- & <- & <- & _).
    rewrite Ht. auto. }
  split.
  - intros on off.
    assert (observable on = observable off) as H
      by (apply run_obs; reflexivity).
    split; [exact H | apply Hread, H].
  - intros plain flag Hflag on.
    assert (observable on = observable plain) as H.
    { apply main_obs. destruct Hflag as [-> | ->]; reflexivity. }
    destruct (Hread on plain H) as (H1 & _ & H3 & _).
    auto.
Qed.

Lemma verbose_changes_only_logs_witness :
  played (trace (main Demo.env ["phonical"; "-v"] phonicsFiles
                   [AHook (Demo.keyDown 65); APlayer]))
  = played (trace (main Demo.env ["phonical"] phonicsFiles
                     [AHook (Demo.keyDown 65); APlayer])).
Proof.
  pose proof (verbose_changes_only_logs Demo.env
                [AHook (Demo.keyDown 65); APlayer] Demo.start
                "phonical" phonicsFiles) as [_ H].
  exact (proj2 (proj2 (H "-v" (or_introl eq_refl)))).
Defined.

(** C10. A load that fails leaves the cache as it was, with no entry for
    the identifier; the next load of the identifier is therefore not served
    from the cache: it opens the asset again, goes through the same steps
    and fails with the same error. *)
Theorem failed_load_not_cached (E : Env) (soundPath : string)
    (st st1 : State) (err : error) :
  loadSound E soundPath st = (Err err, st1) →
  soundCache st1 = soundCache st ∧
  soundCache st1 !! soundPath = None ∧
  ∃ evs,
    trace st1 = trace st ++ evs ∧
    hd_error evs = Some (EvOpen ("sounds/" +:+ soundPath)) ∧
    (loadSound E soundPath st1).1 = Err err ∧
    trace (loadSound E soundPath st1).2 = trace st1 ++ evs ∧
    soundCache (loadSound E soundPath st1).2 = soundCache st.
Proof.
  intros Hload.
  destruct (loadSound_err E soundPath st st1 err Hload)
    as (Hmiss & Hsame & Hloads).
  assert (soundCache st1 !! soundPath = None) as Hmiss1
    by (rewrite Hsame; exact Hmiss).
  split; [exact Hsame |]. split; [exact Hmiss1 |].
  destruct (loadSound_miss_again E soundPath st st1 Hmiss Hmiss1)
    as (Hres & evs & Htr & Htr1 & Hhd).
  rewrite Hload in Hres, Htr. simpl in Hres, Htr.
  exists evs. repeat split; try assumption.
  rewrite loadSound_fails_uncached; assumption.
Qed.

Lemma failed_load_not_cached_witness :
  let st1 := (loadSound Demo.env "c.wav" Demo.start).2 in
  soundCache st1 !! "c.wav" = None ∧
  (loadSound Demo.env "c.wav" st1).1
    = Err "wav: missing RIFF at the beginning".
Proof.
  pose proof (failed_load_not_cached Demo.env "c.wav" Demo.start
                (loadSound Demo.env "c.wav" Demo.start).2
                "wav: missing RIFF at the beginning"
                ltac:(vm_compute; reflexivity))
    as (_ & H1 & evs & _ & _ & H2 & _).
  split; [exact H1 | exact H2].
Defined.

(** * Further properties *)

(** ** The events each function adds *)

Lemma omap_Forall_None {A B : Type} (g : A → option B) (P : A → Prop)
    (l : list A) :
  Forall P l → (∀ x, P x → g x = None) → omap g l = [].
Proof.
  intros Hl Hg. induction Hl as [|x l Hx _ IH]; simpl; [reflexivity |].
  rewrite (Hg x Hx). exact IH.
Qed.

Lemma logv_events (m : LogMsg) (st : State) :
  ∃ evs, trace (logv m st) = trace st ++ evs ∧
         Forall (fun ev => isLog ev = true ∧ verbose st = true) evs.
Proof.
  unfold logv. destruct (verbose st).
  - exists [EvLog m]. split; [reflexivity |]. repeat constructor.
  - exists []. rewrite app_nil_r. split; [reflexivity | constructor].
Qed.

Lemma logv_frame (m : LogMsg) (st : State) :
  verbose (logv m st) = verbose st ∧
  speakerInitialized (logv m st) = speakerInitialized st ∧
  playQueue (logv m st) = playQueue st ∧
  soundCache (logv m st) = soundCache st ∧
  mixer (logv m st) = mixer st ∧
  player (logv m st) = player st ∧
  nextDone (logv m st) = nextDone st ∧
  exited (logv m st) = exited st.
Proof.
  unfold logv. destruct (verbose st) eqn:Hv; simpl; repeat split; auto.
Qed.

Lemma handleKeyPress_events (char : Z) (st : State) :
  ∃ evs, trace (handleKeyPress char st) = trace st ++ evs ∧
         Forall (producerEvent (verbose st)) evs.
Proof.
  unfold handleKeyPress.
  destruct (phonicsMap !! char) as [soundFile |] eqn:Hchar.
  2: { exists []. rewrite app_nil_r. split; [reflexivity | constructor]. }
  pose proof (phonicsMap_files char soundFile Hchar) as Hin.
  unfold logv, chan_trySend.
  destruct (verbose st) eqn:Hv; simpl;
    destruct (length (playQueue st) <? playQueue_cap)%nat; simpl;
    rewrite ?Hv; simpl; rewrite <- ?app_assoc; simpl;
    eexists; (split; [reflexivity |]);
    repeat (apply Forall_cons_2; [simpl; repeat split; auto |]); apply Forall_nil_2.
Qed.

Lemma handleKeyPress_frame (char : Z) (st : State) :
  let st' := handleKeyPress char st in
  verbose st' = verbose st ∧
  speakerInitialized st' = speakerInitialized st ∧
  soundCache st' = soundCache st ∧
  mixer st' = mixer st ∧
  player st' = player st ∧
  nextDone st' = nextDone st ∧
  exited st' = exited st.
Proof.
  unfold handleKeyPress.
  destruct (phonicsMap !! char) as [soundFile |]; [| simpl; repeat split; auto].
  unfold logv, chan_trySend.
  destruct (verbose st) eqn:Hv; simpl;
    destruct (length (playQueue st) <? playQueue_cap)%nat; simpl;
    rewrite ?Hv; simpl; repeat split; auto.
Qed.

Lemma handleEvent_events (E : Env) (ev : HookEvent) (st : State) :
  ∃ evs, trace (handleEvent E ev st) = trace st ++ evs ∧
         Forall (producerEvent (verbose st)) evs.
Proof.
  unfold handleEvent.
  set (m := LogHookEvent _ _ _ _).
  destruct (logv_events m st) as (evs1 & Htr1 & Hevs1).
  destruct (logv_frame m st) as (Hv1 & _).
  assert (Forall (producerEvent (verbose st)) evs1) as Hp1.
  { eapply Forall_impl; [exact Hevs1 |].
    intros [] [Hlog Hv]; simpl in *; try discriminate. exact Hv. }
  destruct (Kind ev =? 3).
  2: { exists evs1. auto. }
  destruct (negb (Keychar ev =? 0)).
  - destruct (handleKeyPress_events (lowerKeychar E (Keychar ev)) (logv m st))
      as (evs2 & Htr2 & Hevs2).
    exists (evs1 ++ evs2). rewrite Htr2, Htr1, app_assoc.
    split; [reflexivity |]. apply Forall_app_2; [exact Hp1 |].
    rewrite Hv1 in Hevs2. exact Hevs2.
  - destruct (logv_events (LogNonCharacter (Rawcode ev)) (logv m st))
      as (evs2 & Htr2 & Hevs2).
    exists (evs1 ++ evs2). rewrite Htr2, Htr1, app_assoc.
    split; [reflexivity |]. apply Forall_app_2; [exact Hp1 |].
    eapply Forall_impl; [exact Hevs2 |].
    intros [] [Hlog Hv]; simpl in *; try discriminate. congruence.
Qed.

Lemma handleEvent_frame (E : Env) (ev : HookEvent) (st : State) :
  let st' := handleEvent E ev st in
  verbose st' = verbose st ∧
  speakerInitialized st' = speakerInitialized st ∧
  soundCache st' = soundCache st ∧
  mixer st' = mixer st ∧
  player st' = player st ∧
  nextDone st' = nextDone st ∧
  exited st' = exited st.
Proof.
  unfold handleEvent. cbv zeta.
  set (m := LogHookEvent _ _ _ _).
  destruct (logv_frame m st) as (H1 & H2 & _ & H4 & H5 & H6 & H7 & H8).
  destruct (Kind ev =? 3); [| repeat split; assumption].
  destruct (negb (Keychar ev =? 0)).
  - destruct (handleKeyPress_frame (lowerKeychar E (Keychar ev)) (logv m st))
      as (G1 & G2 & G4 & G5 & G6 & G7 & G8).
    rewrite G1, G2, G4, G5, G6, G7, G8. repeat split; assumption.
  - destruct (logv_frame (LogNonCharacter (Rawcode ev)) (logv m st))
      as (G1 & G2 & _ & G4 & G5 & G6 & G7 & G8).
    rewrite G1, G2, G4, G5, G6, G7, G8. repeat split; assumption.
Qed.

Lemma speakerUpdate_events (st : State) :
  ∃ evs, trace (speakerUpdate st) = trace st ++ evs ∧
         Forall speakerEvent evs.
Proof.
  unfold speakerUpdate.
  destruct (firstDrained (mixer st)) as [[v rest] |].
  - destruct (player st) as [| done].
    { exists []. rewrite app_nil_r. split; [reflexivity | constructor]. }
    destruct (Nat.eqb done (v_done v)).
    + eexists [_]. split; [reflexivity |]. repeat constructor.
    + exists []. rewrite app_nil_r. split; [reflexivity | constructor].
  - destruct (mixer st).
    + exists []. rewrite app_nil_r. split; [reflexivity | constructor].
    + eexists [_]. split; [reflexivity |]. repeat constructor.
Qed.

Lemma speakerUpdate_frame (st : State) :
  let st' := speakerUpdate st in
  verbose st' = verbose st ∧
  speakerInitialized st' = speakerInitialized st ∧
  playQueue st' = playQueue st ∧
  soundCache st' = soundCache st ∧
  exited st' = exited st.
Proof.
  unfold speakerUpdate.
  destruct (firstDrained (mixer st)) as [[v rest] |].
  - destruct (player st) as [| done]; [simpl; repeat split; auto |].
    destruct (Nat.eqb done (v_done v)); simpl; auto.
  - destruct (mixer st); simpl; auto.
Qed.

Lemma playSound_events (E : Env) (soundPath : string) (st : State) :
  ∃ evs, trace (playSound E soundPath st) = trace st ++ evs ∧
         Forall (consumerEvent (verbose st) (speakerInitialized st)
                   soundPath) evs.
Proof.
  unfold playSound.
  destruct (loadSound_trace E soundPath st) as (evs & Htr & Hevs).
  pose proof (loadSound_frame E soundPath st) as Hf.
  destruct (loadSound E soundPath st) as [r st1]; simpl in Htr, Hf.
  destruct Hf as (Hv & Hsi & _).
  assert (Forall (consumerEvent (verbose st) (speakerInitialized st)
                    soundPath) evs) as Hc.
  { eapply Forall_impl; [exact Hevs |]. intros ev [-> | ->]; reflexivity. }
  assert (∀ m s, trace s = trace st ++ evs → verbose s = verbose st →
            ∃ evs', trace (logv m s) = trace st ++ evs' ∧
              Forall (consumerEvent (verbose st) (speakerInitialized st)
                        soundPath) evs') as Hlog.
  { intros m s Hs Hvs. unfold logv. rewrite Hvs.
    destruct (verbose st) eqn:Hvst.
    - exists (evs ++ [EvLog m]). simpl. rewrite Hs, app_assoc.
      split; [reflexivity |]. apply Forall_app_2; [exact Hc |].
      repeat constructor.
    - exists evs. auto. }
  destruct r as [[buffer format] | err]; [| apply Hlog; assumption].
  unfold initSpeaker. rewrite Hsi.
  destruct (speakerInitialized st) eqn:Hsist.
  - exists (evs ++ [EvPlay soundPath buffer]). simpl.
    rewrite Htr, app_assoc. split; [reflexivity |].
    apply Forall_app_2; [exact Hc |]. repeat constructor.
  - destruct (speaker_Init E _ _) as [u | err].
    + exists (evs ++ [EvSpeakerInit 44100 734; EvPlay soundPath buffer]).
      simpl. rewrite Htr, <- !app_assoc. split; [reflexivity |].
      apply Forall_app_2; [exact Hc |]. repeat constructor.
    + unfold logv. simpl. rewrite Hv.
      destruct (verbose st) eqn:Hvst; simpl.
      * exists (evs ++ [EvSpeakerInit 44100 734;
                        EvLog (LogSpeakerInitFailed
                          ("failed to initialize speaker: " +:+ err))]).
        rewrite Htr, <- !app_assoc. split; [reflexivity |].
        apply Forall_app_2; [exact Hc |]. repeat constructor.
      * exists (evs ++ [EvSpeakerInit 44100 734]).
        rewrite Htr, <- !app_assoc. split; [reflexivity |].
        apply Forall_app_2; [exact Hc |]. repeat constructor.
Qed.

Lemma omap_trace_app {B : Type} (g : Event → option B) (st st' : State)
    (evs : list Event) :
  trace st' = trace st ++ evs → omap g (trace st') = omap g (trace st) ++ omap g evs.
Proof. intros ->. apply omap_app. Qed.

Lemma producer_readers (v : bool) (evs : list Event) :
  Forall (producerEvent v) evs →
  opened evs = [] ∧ fileIO evs = [] ∧ played evs = [] ∧
  speakerInits evs = [] ∧ received evs = [] ∧
  (v = false → printed evs = []).
Proof.
  intros H. repeat split; try intros Hv;
    (eapply omap_Forall_None; [exact H |]);
    intros [] Hev; simpl in *; try reflexivity; try contradiction;
    congruence.
Qed.

Lemma run_app (E : Env) (sched1 sched2 : list Action) (st : State) :
  run E (sched1 ++ sched2) st = run E sched2 (run E sched1 st).
Proof. unfold run. apply foldl_app. Qed.

Lemma run_exited (E : Env) (sched : list Action) (st : State) :
  exited st = true → run E sched st = st.
Proof.
  intros Hx. induction sched as [|a sched IH]; [reflexivity |].
  change (run E sched (step E a st) = st).
  assert (step E a st = st) as -> by (unfold step; rewrite Hx; reflexivity).
  exact IH.
Qed.

(** ** The event loop *)

(** X5. The interrupt signal ends the program: whatever is scheduled after
    it (key events, consumer turns, speaker updates, more signals) changes
    nothing. *)
Theorem signal_ends_the_run (E : Env) (sched1 sched2 : list Action)
    (st : State) :
  exited (run E (sched1 ++ [ASignal]) st) = true ∧
  run E (sched1 ++ ASignal :: sched2) st = run E (sched1 ++ [ASignal]) st.
Proof.
  assert (exited (run E (sched1 ++ [ASignal]) st) = true) as Hx.
  { rewrite run_app. simpl. unfold step.
    destruct (exited (run E sched1 st)) eqn:H; [exact H | reflexivity]. }
  split; [exact Hx |].
  change (ASignal :: sched2) with ([ASignal] ++ sched2).
  rewrite app_assoc, run_app. apply run_exited, Hx.
Qed.

(** X6. An event that is not a key-down (its kind is not 3), or a key-down
    that carries no character, changes nothing but the diagnostics; with
    [verbose] off it changes nothing at all. *)
Theorem other_events_are_ignored (E : Env) (ev : HookEvent) (st : State) :
  Kind ev ≠ 3 ∨ Keychar ev = 0 →
  observable (handleEvent E ev st) = observable st ∧
  (verbose st = false → handleEvent E ev st = st).
Proof.
  intros Hev.
  assert (∀ m s, verbose s = false → logv m s = s) as Hquiet
    by (intros m s Hv; unfold logv; rewrite Hv; reflexivity).
  unfold handleEvent.
  destruct (Z.eqb_spec (Kind ev) 3) as [Hk | Hk].
  - destruct Hev as [Hne | H0]; [contradiction |].
    rewrite H0. cbn [Z.eqb negb]. split.
    + rewrite !obs_logv. reflexivity.
    + intros Hv. rewrite (Hquiet _ st Hv). apply Hquiet, Hv.
  - split; [apply obs_logv | intros Hv; apply Hquiet, Hv].
Qed.

Lemma other_events_are_ignored_witness :
  handleEvent Demo.env (mkHookEvent 4 0 (rune "a") 0) Demo.start = Demo.start.
Proof.
  exact (proj2 (other_events_are_ignored Demo.env
                  (mkHookEvent 4 0 (rune "a") 0) Demo.start
                  ltac:(left; vm_compute; discriminate))
           ltac:(reflexivity)).
Defined.

Lemma handleKeyPress_queue_shape (char : Z) (st : State) :
  playQueue (handleKeyPress char st) = playQueue st ∨
  ∃ soundFile, phonicsMap !! char = Some soundFile ∧
    (length (playQueue st) < playQueue_cap)%nat ∧
    playQueue (handleKeyPress char st) = playQueue st ++ [soundFile].
Proof.
  unfold handleKeyPress.
  destruct (phonicsMap !! char) as [soundFile |]; [| left; reflexivity].
  unfold logv, chan_trySend.
  destruct (verbose st) eqn:Hv; simpl;
    destruct (Nat.ltb_spec (length (playQueue st)) playQueue_cap); simpl;
    rewrite ?Hv; simpl; eauto.
Qed.

(** X7. Handling a hook event does no audio work: it opens and decodes no
    file, calls neither [speaker.Init] nor [speaker.Play], receives nothing
    from the queue, leaves the cache, the speaker and the consumer as they
    are, and at most appends one identifier of the table to the queue. *)
Theorem key_handling_does_no_audio_work (E : Env) (ev : HookEvent)
    (st : State) :
  let st' := handleEvent E ev st in
  soundCache st' = soundCache st ∧
  mixer st' = mixer st ∧
  player st' = player st ∧
  speakerInitialized st' = speakerInitialized st ∧
  fileIO (trace st') = fileIO (trace st) ∧
  speakerInits (trace st') = speakerInits (trace st) ∧
  played (trace st') = played (trace st) ∧
  received (trace st') = received (trace st) ∧
  (playQueue st' = playQueue st ∨
   ∃ soundFile, soundFile ∈ phonicsFiles ∧
                playQueue st' = playQueue st ++ [soundFile]).
Proof.
  intros st'.
  destruct (handleEvent_frame E ev st) as (_ & Hsi & Hc & Hm & Hp & _).
  destruct (handleEvent_events E ev st) as (evs & Htr & Hevs).
  destruct (producer_readers _ evs Hevs) as (_ & Hio & Hpl & Hin & Hrc & _).
  fold st' in Hsi, Hc, Hm, Hp, Htr.
  unfold fileIO, speakerInits, played, received in *.
  rewrite !(omap_trace_app _ st st' evs Htr), Hio, Hpl, Hin, Hrc,
    !app_nil_r.
  repeat split; try assumption.
  unfold st', handleEvent.
  set (st1 := logv _ st).
  assert (playQueue st1 = playQueue st) as Hq1 by apply logv_frame.
  destruct (Kind ev =? 3); [| left; exact Hq1].
  destruct (negb (Keychar ev =? 0)).
  - destruct (handleKeyPress_queue_shape (lowerKeychar E (Keychar ev)) st1)
      as [Hsame | (soundFile & Hchar & _ & Happ)].
    + left. rewrite Hsame. exact Hq1.
    + right. exists soundFile. rewrite Happ, Hq1.
      split; [exact (phonicsMap_files _ _ Hchar) | reflexivity].
  - left. rewrite <- Hq1. apply logv_frame.
Qed.

(** X8. [handleKeyPress] looks its rune up as it is: a rune that is not a
    lower-case Latin letter (an upper-case letter, for one) leaves the
    state untouched, without even a diagnostic; a lower-case letter, while
    the queue has room, has its file appended at the tail of the queue and
    the send recorded as accepted. *)
Theorem handleKeyPress_by_table (char : Z) (st : State) :
  (isLowerLatin char = false → handleKeyPress char st = st) ∧
  (isLowerLatin char = true →
   (length (playQueue st) < playQueue_cap)%nat →
   playQueue (handleKeyPress char st) = playQueue st ++ [letterFile char] ∧
   sends (trace (handleKeyPress char st))
     = sends (trace st) ++ [(letterFile char, true)]).
Proof.
  split.
  - intros H. unfold handleKeyPress. rewrite (phonicsMap_other char H).
    reflexivity.
  - intros H Hroom. unfold handleKeyPress.
    rewrite (phonicsMap_letter char H).
    apply Nat.ltb_lt in Hroom.
    unfold logv, chan_trySend.
    destruct (verbose st) eqn:Hv; simpl; rewrite Hroom; simpl;
      trace_simpl; split; reflexivity.
Qed.

Lemma handleKeyPress_by_table_witness :
  handleKeyPress (rune "A") Demo.start = Demo.start ∧
  playQueue (handleKeyPress (rune "q") Demo.start) = ["q.wav"].
Proof.
  split.
  - exact (proj1 (handleKeyPress_by_table (rune "A") Demo.start)
             ltac:(vm_compute; reflexivity)).
  - exact (proj1 (proj2 (handleKeyPress_by_table (rune "q") Demo.start)
                    ltac:(vm_compute; reflexivity)
                    ltac:(vm_compute; lia))).
Defined.

(** ** [loadSound] *)

(** X9. The format [loadSound] returns with a cached buffer is the
    constant 44100 Hz, 2 channels, 2 bytes, not the format of the buffer:
    after a miss that decoded an asset, the next call returns the same
    buffer, still in the format the decoder reported, and its returned
    format agrees with the first call's only if that format is the
    constant. *)
Theorem loadSound_hit_format (E : Env) (soundPath : string) (st st1 : State)
    (buffer : Buffer) (format : Format) :
  soundCache st !! soundPath = None →
  loadSound E soundPath st = (Ok (buffer, format), st1) →
  buf_f buffer = format ∧
  (loadSound E soundPath st1).1 = Ok (buffer, canonicalFormat) ∧
  ((loadSound E soundPath st1).1 = (loadSound E soundPath st).1
   ↔ format = canonicalFormat).
Proof.
  intros Hmiss Hload.
  pose proof (loadSound_ok_cached E soundPath st st1 buffer format Hload)
    as Hcached.
  rewrite (loadSound_hit E soundPath st1 buffer Hcached), Hload. simpl.
  assert (buf_f buffer = format) as Hf.
  { revert Hload. unfold loadSound. rewrite Hmiss. intros Hload.
    split_cases; reflexivity. }
  split; [exact Hf |]. split; [reflexivity |].
  unfold canonicalFormat. split; [intros [=]; congruence | intros ->; auto].
Qed.

Lemma loadSound_hit_format_witness :
  let st1 := (loadSound Demo.env "b.wav" Demo.start).2 in
  (loadSound Demo.env "b.wav" st1).1
    = Ok (mkBuffer (mkFormat 22050 1 2) [(5, 5); (6, 6)], canonicalFormat).
Proof.
  exact (proj1 (proj2 (loadSound_hit_format Demo.env "b.wav" Demo.start
                         (loadSound Demo.env "b.wav" Demo.start).2
                         (mkBuffer (mkFormat 22050 1 2) [(5, 5); (6, 6)])
                         (mkFormat 22050 1 2)
                         ltac:(vm_compute; reflexivity)
                         ltac:(vm_compute; reflexivity)))).
Defined.

(** ** The speaker is opened once *)

Lemma consumer_readers (v si : bool) (soundPath : string)
    (evs : list Event) :
  Forall (consumerEvent v si soundPath) evs →
  sends evs = [] ∧ accepted evs = [] ∧ received evs = [] ∧
  (si = true → speakerInits evs = []) ∧
  (v = false → printed evs = []).
Proof.
  intros H. repeat split; try intros Hv;
    (eapply omap_Forall_None; [exact H |]);
    intros [] Hev; simpl in *; try reflexivity; try contradiction;
    try destruct Hev as (Hsi & _); congruence.
Qed.

Lemma speaker_readers (evs : list Event) :
  Forall speakerEvent evs →
  sends evs = [] ∧ accepted evs = [] ∧ received evs = [] ∧
  played evs = [] ∧ fileIO evs = [] ∧ speakerInits evs = [] ∧
  printed evs = [].
Proof.
  intros H. repeat split;
    (eapply omap_Forall_None; [exact H |]);
    intros [] Hev; simpl in *; try reflexivity; contradiction.
Qed.

Lemma preload_readers (v : bool) (evs : list Event) :
  Forall (preloadEvent v) evs →
  sends evs = [] ∧ accepted evs = [] ∧ received evs = [] ∧
  played evs = [] ∧ speakerInits evs = [] ∧
  (v = false → printed evs = []).
Proof.
  intros H. repeat split; try intros Hv;
    (eapply omap_Forall_None; [exact H |]);
    intros [] Hev; simpl in *; try reflexivity; try contradiction;
    congruence.
Qed.

Lemma soundPlayer_shape (E : Env) (st : State) :
  soundPlayer E st = st ∨
  ∃ soundFile q,
    player st = AtRange ∧ playQueue st = soundFile :: q ∧
    soundPlayer E st
      = playSound E soundFile (emit (EvRecv soundFile) (set_playQueue q st)).
Proof.
  unfold soundPlayer, chan_recv.
  destruct (player st); [| left; reflexivity].
  destruct (playQueue st) as [|soundFile q]; [left; reflexivity |].
  right. exists soundFile, q. auto.
Qed.

Lemma initSpeaker_fails (E : Env) (st : State) (err : error) :
  speakerInitialized st = false →
  speaker_Init E 44100 734 = Err err →
  initSpeaker E st
    = (Err ("failed to initialize speaker: " +:+ err),
       emit (EvSpeakerInit 44100 734) st).
Proof.
  intros Hsi Hinit. unfold initSpeaker. rewrite Hsi.
  change (speaker_Init E _ _) with (speaker_Init E 44100 734).
  rewrite Hinit. reflexivity.
Qed.

Lemma playSound_initialized (E : Env) (soundPath : string) (st : State) :
  speakerInitialized st = true →
  speakerInitialized (playSound E soundPath st) = true.
Proof.
  intros Hsi. unfold playSound.
  pose proof (loadSound_frame E soundPath st) as Hf.
  destruct (loadSound E soundPath st) as [r st1]; simpl in Hf.
  destruct Hf as (_ & Hsi1 & _). rewrite Hsi in Hsi1.
  destruct r as [[buffer format] | err].
  - rewrite Hsi1. simpl. exact Hsi1.
  - destruct (logv_frame (LogLoadFailed soundPath err) st1) as (_ & -> & _).
    exact Hsi1.
Qed.

Lemma step_initialized (E : Env) (a : Action) (st : State) :
  speakerInitialized st = true →
  speakerInitialized (step E a st) = true ∧
  speakerInits (trace (step E a st)) = speakerInits (trace st).
Proof.
  intros Hsi. unfold step. destruct (exited st); [auto |].
  destruct a as [ev | | |].
  - destruct (handleEvent_frame E ev st) as (_ & -> & _).
    destruct (handleEvent_events E ev st) as (evs & Htr & Hevs).
    destruct (producer_readers _ evs Hevs) as (_ & _ & _ & Hin & _).
    unfold speakerInits in *.
    rewrite (omap_trace_app _ st _ evs Htr), Hin, app_nil_r. auto.
  - simpl. unfold speakerInits. rewrite omap_app, app_nil_r. auto.
  - destruct (soundPlayer_shape E st) as [-> | (f & q & _ & _ & ->)];
      [auto |].
    set (st0 := emit (EvRecv f) (set_playQueue q st)).
    assert (speakerInitialized st0 = true) as Hsi0 by exact Hsi.
    split; [apply playSound_initialized, Hsi0 |].
    destruct (playSound_events E f st0) as (evs & Htr & Hevs).
    rewrite Hsi0 in Hevs.
    destruct (consumer_readers _ _ _ _ Hevs) as (_ & _ & _ & Hin & _).
    unfold speakerInits in *.
    rewrite (omap_trace_app _ st0 _ evs Htr), (Hin eq_refl), app_nil_r.
    unfold st0. simpl. rewrite omap_app, app_nil_r. reflexivity.
  - destruct (speakerUpdate_frame st) as (_ & -> & _).
    destruct (speakerUpdate_events st) as (evs & Htr & Hevs).
    destruct (speaker_readers evs Hevs) as (_ & _ & _ & _ & _ & Hin & _).
    unfold speakerInits in *.
    rewrite (omap_trace_app _ st _ evs Htr), Hin, app_nil_r. auto.
Qed.

Lemma run_initialized (E : Env) (sched : list Action) (st : State) :
  speakerInitialized st = true →
  speakerInitialized (run E sched st) = true ∧
  speakerInits (trace (run E sched st)) = speakerInits (trace st).
Proof.
  revert st. induction sched as [|a sched IH]; intros st Hsi; [auto |].
  change (run E (a :: sched) st) with (run E sched (step E a st)).
  destruct (step_initialized E a st Hsi) as [H1 H2].
  destruct (IH _ H1) as [G1 G2]. rewrite G2, H2. auto.
Qed.

Lemma preloadOne_events (E : Env) (st : State) (soundFile : string) :
  ∃ evs, trace (preloadOne E st soundFile) = trace st ++ evs ∧
         Forall (preloadEvent (verbose st)) evs.
Proof.
  unfold preloadOne.
  destruct (loadSound_trace E soundFile st) as (evs & Htr & Hevs).
  pose proof (loadSound_frame E soundFile st) as Hf.
  destruct (loadSound E soundFile st) as [r st1]; simpl in Htr, Hf.
  destruct Hf as (Hv & _).
  assert (Forall (preloadEvent (verbose st)) evs) as Hp.
  { eapply Forall_impl; [exact Hevs |]. intros ev [-> | ->]; exact I. }
  destruct r as [ok | err]; [exists evs; auto |].
  unfold logv. rewrite Hv. destruct (verbose st) eqn:Hvst.
  - exists (evs ++ [EvLog (LogPreloadFailed soundFile err)]).
    simpl. rewrite Htr, app_assoc. split; [reflexivity |].
    apply Forall_app_2; [exact Hp |]. repeat constructor.
  - exists evs. auto.
Qed.

Lemma preloadOne_frame (E : Env) (st : State) (soundFile : string) :
  let st' := preloadOne E st soundFile in
  verbose st' = verbose st ∧
  speakerInitialized st' = speakerInitialized st ∧
  playQueue st' = playQueue st ∧
  mixer st' = mixer st ∧
  player st' = player st ∧
  nextDone st' = nextDone st ∧
  exited st' = exited st.
Proof.
  unfold preloadOne.
  pose proof (loadSound_frame E soundFile st) as Hf.
  destruct (loadSound E soundFile st) as [r st1]; simpl in Hf.
  destruct r as [ok | err]; [exact Hf |].
  destruct Hf as (H1 & H2 & H3 & H4 & H5 & H6 & H7).
  destruct (logv_frame (LogPreloadFailed soundFile err) st1)
    as (G1 & G2 & G3 & _ & G4 & G5 & G6 & G7).
  cbv zeta. rewrite G1, G2, G3, G4, G5, G6, G7. repeat split; assumption.
Qed.

Lemma preloadSounds_events (E : Env) (order : list string) (st : State) :
  ∃ evs, trace (preloadSounds E order st) = trace st ++ evs ∧
         Forall (preloadEvent (verbose st)) evs.
Proof.
  unfold preloadSounds.
  assert (∀ m s evs0, trace s = trace st ++ evs0 →
            verbose s = verbose st →
            Forall (preloadEvent (verbose st)) evs0 →
            ∃ evs, trace (logv m s) = trace st ++ evs ∧
                   Forall (preloadEvent (verbose st)) evs) as Hlog.
  { intros m s evs0 Hs Hv H0. unfold logv. rewrite Hv.
    destruct (verbose st) eqn:Hvst; [| exists evs0; auto].
    exists (evs0 ++ [EvLog m]). simpl. rewrite Hs, app_assoc.
    split; [reflexivity |]. apply Forall_app_2; [exact H0 |].
    repeat constructor. }
  destruct (Hlog LogPreloading st [] ltac:(rewrite app_nil_r; reflexivity)
              eq_refl ltac:(constructor)) as (evs1 & Htr1 & Hevs1).
  destruct (logv_frame LogPreloading st) as (Hv1 & _).
  revert Htr1 Hv1 Hevs1. generalize (logv LogPreloading st). revert evs1.
  induction order as [|f order IH]; intros evs1 s Htr Hv Hevs; simpl.
  - apply (Hlog _ s evs1); assumption.
  - destruct (preloadOne_events E s f) as (evs2 & Htr2 & Hevs2).
    destruct (preloadOne_frame E s f) as (Hv2 & _).
    apply (IH (evs1 ++ evs2)).
    + rewrite Htr2, Htr, app_assoc. reflexivity.
    + rewrite Hv2. exact Hv.
    + apply Forall_app_2; [exact Hevs |]. rewrite <- Hv. exact Hevs2.
Qed.

Lemma preloadSounds_frame (E : Env) (order : list string) (st : State) :
  let st' := preloadSounds E order st in
  verbose st' = verbose st ∧
  speakerInitialized st' = speakerInitialized st ∧
  playQueue st' = playQueue st ∧
  mixer st' = mixer st ∧
  player st' = player st ∧
  nextDone st' = nextDone st ∧
  exited st' = exited st.
Proof.
  unfold preloadSounds. cbv zeta.
  set (P := fun s : State =>
              verbose s = verbose st ∧
              speakerInitialized s = speakerInitialized st ∧
              playQueue s = playQueue st ∧ mixer s = mixer st ∧
              player s = player st ∧ nextDone s = nextDone st ∧
              exited s = exited st).
  assert (∀ m s, P s → P (logv m s)) as Hlog.
  { intros m s (H1 & H2 & H3 & H4 & H5 & H6 & H7).
    destruct (logv_frame m s) as (G1 & G2 & G3 & _ & G4 & G5 & G6 & G7).
    unfold P. rewrite G1, G2, G3, G4, G5, G6, G7. repeat split; assumption. }
  change (P (logv (LogPreloaded (size (soundCache
            (foldl (preloadOne E) (logv LogPreloading st) order))))
            (foldl (preloadOne E) (logv LogPreloading st) order))).
  apply Hlog.
  assert (P (logv LogPreloading st)) as H0
    by (apply Hlog; unfold P; repeat split; reflexivity).
  revert H0. generalize (logv LogPreloading st).
  induction order as [|f order IH]; intros s Hs; simpl; [exact Hs |].
  apply IH. destruct Hs as (H1 & H2 & H3 & H4 & H5 & H6 & H7).
  destruct (preloadOne_frame E s f) as (G1 & G2 & G3 & G4 & G5 & G6 & G7).
  unfold P. rewrite G1, G2, G3, G4, G5, G6, G7. repeat split; assumption.
Qed.

(** X1. A run of [main] calls [speaker.Init] exactly once, at 44100 Hz with
    a buffer of 734 samples (a sixtieth of a second), whatever the keys
    pressed, the clips played and the assets that fail; with the help flag
    it does not call it at all. *)
Theorem speaker_is_opened_once (E : Env) (args order : list string)
    (sched : list Action) :
  speakerInits (trace (main E args order sched))
    = if isHelpFlag args then [] else [(44100, 734)].
Proof.
  unfold main. destruct (isHelpFlag args); [reflexivity |].
  set (s0 := emit (EvLog LogBanner) _).
  unfold initSpeaker.
  change (speakerInitialized s0) with false. cbv iota.
  change (speaker_Init E _ _) with (speaker_Init E 44100 734).
  destruct (speaker_Init E 44100 734) as [u | err]; [| reflexivity].
  set (s1 := set_speakerInitialized true _).
  assert (speakerInits (trace s1) = [(44100, 734)]) as H1 by reflexivity.
  destruct (preloadSounds_frame E order s1) as (_ & Hsi & _).
  destruct (preloadSounds_events E order s1) as (evs & Htr & Hevs).
  destruct (preload_readers _ evs Hevs) as (_ & _ & _ & _ & Hin & _).
  set (s2 := preloadSounds E order s1) in *.
  set (s3 := emit (EvLog LogListening) s2).
  assert (speakerInitialized s3 = true) as Hsi3 by exact Hsi.
  destruct (run_initialized E sched s3 Hsi3) as [_ ->].
  unfold s3. simpl. unfold speakerInits in *.
  rewrite omap_app, app_nil_r, (omap_trace_app _ s1 s2 evs Htr), Hin,
    app_nil_r.
  exact H1.
Qed.

(** X2. When [playSound] finds the speaker not initialised and
    [speaker.Init] fails, nothing is played and the speaker stays not
    initialised; the clip was loaded before the speaker was tried, so the
    cache is filled as by [loadSound] alone, and [speaker.Init] was called
    once if that load went through and not at all otherwise. *)
Theorem playSound_without_speaker (E : Env) (soundPath : string)
    (st : State) (err : error) :
  speakerInitialized st = false →
  speaker_Init E 44100 734 = Err err →
  let st' := playSound E soundPath st in
  speakerInitialized st' = false ∧
  played (trace st') = played (trace st) ∧
  mixer st' = mixer st ∧
  player st' = player st ∧
  soundCache st' = soundCache (loadSound E soundPath st).2 ∧
  speakerInits (trace st')
    = speakerInits (trace st) ++
        match (loadSound E soundPath st).1 with
        | Ok _ => [(44100, 734)]
        | Err _ => []
        end.
Proof.
  intros Hsi Hinit st'. unfold st', playSound.
  destruct (loadSound_trace E soundPath st) as (evs & Htr & Hevs).
  pose proof (loadSound_frame E soundPath st) as Hf.
  destruct (loadSound E soundPath st) as [r st1]; simpl in Htr, Hf |- *.
  destruct Hf as (_ & Hsi1 & _ & Hm & Hp & _).
  rewrite Hsi in Hsi1.
  assert (played evs = [] ∧ speakerInits evs = []) as [Hpl Hin].
  { split; (eapply omap_Forall_None; [exact Hevs |]);
      intros ev [-> | ->]; reflexivity. }
  assert (∀ m s, speakerInitialized s = false → mixer s = mixer st →
            player s = player st → soundCache s = soundCache st1 →
            ∀ extra, trace s = trace st1 ++ extra → played extra = [] →
            speakerInitialized (logv m s) = false ∧
            played (trace (logv m s)) = played (trace st) ∧
            mixer (logv m s) = mixer st ∧
            player (logv m s) = player st ∧
            soundCache (logv m s) = soundCache st1 ∧
            speakerInits (trace (logv m s))
              = speakerInits (trace st) ++ speakerInits extra) as Hlog.
  { intros m s H1 H2 H3 H4 extra H5 H6.
    destruct (logv_frame m s) as (_ & G2 & _ & G4 & G5 & G6 & _).
    destruct (logv_events m s) as (logs & Hl & Hlogs).
    assert (played logs = [] ∧ speakerInits logs = []) as [L1 L2].
    { split; (eapply omap_Forall_None; [exact Hlogs |]);
        intros [] [Hlog _]; simpl in *; try discriminate; reflexivity. }
    rewrite G2, G4, G5, G6. repeat split; try assumption.
    - unfold played in *.
      rewrite Hl, H5, Htr, !omap_app, Hpl, H6, L1, !app_nil_r. reflexivity.
    - unfold speakerInits in *.
      rewrite Hl, H5, Htr, !omap_app, Hin, L2, !app_nil_r. reflexivity. }
  destruct r as [[buffer format] | err'].
  - rewrite Hsi1, (initSpeaker_fails E st1 err Hsi1 Hinit).
    apply (Hlog _ (emit (EvSpeakerInit 44100 734) st1)
             Hsi1 Hm Hp eq_refl [EvSpeakerInit 44100 734]);
      reflexivity.
  - destruct (Hlog (LogLoadFailed soundPath err') st1 Hsi1 Hm Hp eq_refl []
                ltac:(rewrite app_nil_r; reflexivity) eq_refl)
      as (H1 & H2 & H3 & H4 & H5 & H6).
    rewrite app_nil_r in H6 |- *. auto 10.
Qed.

Lemma playSound_without_speaker_witness :
  let st' := playSound Mute.env "a.wav" Mute.start in
  speakerInitialized st' = false ∧
  played (trace st') = [] ∧
  speakerInits (trace st') = [(44100, 734)].
Proof.
  pose proof (playSound_without_speaker Mute.env "a.wav" Mute.start
                "no audio device"
                ltac:(reflexivity) ltac:(reflexivity))
    as (H1 & H2 & _ & _ & _ & H6).
  split; [exact H1 |]. split; [exact H2 | exact H6].
Defined.

(** X3. When [speaker.Init] fails at startup, [main] prints the banner and
    the fatal error, which wraps the cause, and exits: no sound is
    preloaded, no event is handled, no consumer runs. *)
Theorem main_needs_the_speaker (E : Env) (args order : list string)
    (sched : list Action) (err : error) :
  isHelpFlag args = false →
  speaker_Init E 44100 734 = Err err →
  main E args order sched
    = set_exited true
        (emit (EvLog (LogFatal ("failed to initialize speaker: " +:+ err)))
           (emit (EvSpeakerInit 44100 734)
              (emit (EvLog LogBanner)
                 (idleState (isVerboseFlag args) false [] ∅)))).
Proof.
  intros Hhelp Hinit. unfold main. rewrite Hhelp.
  rewrite (initSpeaker_fails E
             (emit (EvLog LogBanner)
                (idleState (isVerboseFlag args) false [] ∅))
             err eq_refl Hinit).
  reflexivity.
Qed.

Lemma main_needs_the_speaker_witness :
  let st := main Mute.env ["phonical"; "-v"] phonicsFiles
              [AHook (Demo.keyDown (rune "a")); APlayer] in
  exited st = true ∧ opened (trace st) = [] ∧ sends (trace st) = [].
Proof.
  rewrite (main_needs_the_speaker Mute.env ["phonical"; "-v"] phonicsFiles
             [AHook (Demo.keyDown (rune "a")); APlayer] "no audio device"
             ltac:(reflexivity) ltac:(reflexivity)).
  repeat split.
Defined.

(** ** Preloading and diagnostics *)

Lemma preload_fold_keeps_entry (E : Env) (order : list string) (st : State)
    (other : string) (buffer : Buffer) :
  soundCache st !! other = Some buffer →
  soundCache (foldl (preloadOne E) st order) !! other = Some buffer.
Proof.
  revert st. induction order as [|f order IH]; intros st H; simpl.
  - exact H.
  - apply IH. rewrite preloadOne_cache. apply loadSound_keeps_entry, H.
Qed.

(** X15. Preloading only fills the cache: it leaves the queue, the speaker
    and the consumer alone, sends, receives and plays nothing, does not
    call [speaker.Init], and keeps every entry the cache already had. *)
Theorem preload_only_fills_the_cache (E : Env) (order : list string)
    (st : State) :
  let st' := preloadSounds E order st in
  playQueue st' = playQueue st ∧
  mixer st' = mixer st ∧
  player st' = player st ∧
  speakerInitialized st' = speakerInitialized st ∧
  exited st' = exited st ∧
  sends (trace st') = sends (trace st) ∧
  received (trace st') = received (trace st) ∧
  played (trace st') = played (trace st) ∧
  speakerInits (trace st') = speakerInits (trace st) ∧
  (∀ soundFile buffer, soundCache st !! soundFile = Some buffer →
     soundCache st' !! soundFile = Some buffer).
Proof.
  intros st'.
  destruct (preloadSounds_frame E order st)
    as (_ & Hsi & Hq & Hm & Hp & _ & Hx).
  destruct (preloadSounds_events E order st) as (evs & Htr & Hevs).
  destruct (preload_readers _ evs Hevs) as (Hs & _ & Hr & Hpl & Hin & _).
  fold st' in Hsi, Hq, Hm, Hp, Hx, Htr.
  unfold sends, received, played, speakerInits in *.
  rewrite !(omap_trace_app _ st st' evs Htr), Hs, Hr, Hpl, Hin, !app_nil_r.
  repeat split; try assumption.
  intros soundFile buffer Hc. unfold st', preloadSounds.
  rewrite logv_cache. apply preload_fold_keeps_entry.
  rewrite logv_cache. exact Hc.
Qed.

Lemma step_quiet (E : Env) (a : Action) (st : State) :
  verbose st = false → exited st = false →
  verbose (step E a st) = false ∧
  match a with
  | ASignal => exited (step E a st) = true ∧
               printed (trace (step E a st))
                 = printed (trace st) ++ [LogExiting]
  | _ => exited (step E a st) = false ∧
         printed (trace (step E a st)) = printed (trace st)
  end.
Proof.
  intros Hv Hx. unfold step. rewrite Hx.
  destruct a as [ev | | |].
  - destruct (handleEvent_frame E ev st) as (-> & _ & _ & _ & _ & _ & ->).
    destruct (handleEvent_events E ev st) as (evs & Htr & Hevs).
    destruct (producer_readers _ evs Hevs) as (_ & _ & _ & _ & _ & Hpr).
    rewrite Hv in Hpr. unfold printed in *.
    rewrite (omap_trace_app _ st _ evs Htr), (Hpr eq_refl), app_nil_r.
    auto.
  - simpl. unfold printed. rewrite omap_app. auto.
  - destruct (soundPlayer_shape E st) as [-> | (f & q & _ & _ & ->)];
      [auto |].
    set (st0 := emit (EvRecv f) (set_playQueue q st)).
    destruct (playSound_frame E f st0) as (-> & _ & -> & _).
    destruct (playSound_events E f st0) as (evs & Htr & Hevs).
    destruct (consumer_readers _ _ _ _ Hevs) as (_ & _ & _ & _ & Hpr).
    change (verbose st0) with (verbose st) in Hpr. rewrite Hv in Hpr.
    unfold printed in *.
    rewrite (omap_trace_app _ st0 _ evs Htr), (Hpr eq_refl), app_nil_r.
    unfold st0. simpl. rewrite omap_app, app_nil_r. auto.
  - destruct (speakerUpdate_frame st) as (-> & _ & _ & _ & ->).
    destruct (speakerUpdate_events st) as (evs & Htr & Hevs).
    destruct (speaker_readers evs Hevs) as (_ & _ & _ & _ & _ & _ & Hpr).
    unfold printed in *.
    rewrite (omap_trace_app _ st _ evs Htr), Hpr, app_nil_r. auto.
Qed.

(** X16. With [verbose] off nothing is printed while the program runs,
    whichever keys are pressed and whichever loads or sends fail; the one
    line that appears is the exit line, when the signal arrives. *)
Theorem quiet_run_prints_nothing (E : Env) (sched : list Action)
    (st : State) :
  verbose st = false →
  printed (trace (run E sched st))
    = printed (trace st) ++
        (if exited st then []
         else if exited (run E sched st) then [LogExiting] else []).
Proof.
  revert st. induction sched as [|a sched IH]; intros st Hv.
  - simpl. destruct (exited st); rewrite app_nil_r; reflexivity.
  - destruct (exited st) eqn:Hx.
    { rewrite (run_exited E _ st Hx), app_nil_r. reflexivity. }
    change (run E (a :: sched) st) with (run E sched (step E a st)).
    destruct (step_quiet E a st Hv Hx) as [Hv' Ha].
    rewrite (IH _ Hv').
    destruct a as [ev | | |]; destruct Ha as [Hx' Hpr]; rewrite Hx', Hpr.
    + reflexivity.
    + rewrite (run_exited E sched _ Hx'), Hx', app_nil_r. reflexivity.
    + reflexivity.
    + reflexivity.
Qed.

Lemma quiet_run_prints_nothing_witness :
  printed (trace (run Demo.env
                    [AHook (Demo.keyDown (rune "c")); APlayer;
                     AHook (mkHookEvent 3 55 0 0)]
                    Demo.start)) = [].
Proof.
  exact (quiet_run_prints_nothing Demo.env
           [AHook (Demo.keyDown (rune "c")); APlayer;
            AHook (mkHookEvent 3 55 0 0)]
           Demo.start ltac:(reflexivity)).
Defined.

(** ** What a run of [main] keeps true *)

Lemma main_run (E : Env) (args order : list string) (sched : list Action) :
  main E args order sched = run E sched (main E args order []).
Proof.
  unfold main. destruct (isHelpFlag args).
  { symmetry. apply run_exited. reflexivity. }
  destruct (initSpeaker E _) as [[u | err] s1].
  - reflexivity.
  - symmetry. apply run_exited. reflexivity.
Qed.

Lemma loadSound_miss_decodeAsset (E : Env) (soundPath : string)
    (st : State) :
  soundCache st !! soundPath = None →
  (loadSound E soundPath st).1
    = match decodeAsset E soundPath with
      | Ok buffer => Ok (buffer, buf_f buffer)
      | Err err => Err err
      end ∧
  soundCache (loadSound E soundPath st).2
    = match decodeAsset E soundPath with
      | Ok buffer => <[soundPath := buffer]> (soundCache st)
      | Err _ => soundCache st
      end.
Proof.
  intros Hmiss. unfold loadSound, decodeAsset. rewrite Hmiss.
  split_cases; split; reflexivity.
Qed.

Lemma tableState_ext (E : Env) (st s : State) :
  trace s = trace st → playQueue s = playQueue st →
  soundCache s = soundCache st → tableState E st → tableState E s.
Proof. unfold tableState. intros -> -> ->. auto. Qed.

Lemma tableState_events (E : Env) (st s : State) (evs : list Event) :
  trace s = trace st ++ evs → Forall (tableEvent E) evs →
  playQueue s = playQueue st → soundCache s = soundCache st →
  tableState E st → tableState E s.
Proof.
  unfold tableState. intros -> Hevs -> -> (Ht & Hq & Hc).
  split; [apply Forall_app_2; assumption | auto].
Qed.

Lemma tableState_logv (E : Env) (m : LogMsg) (st : State) :
  tableState E st → tableState E (logv m st).
Proof.
  intros H. destruct (logv_events m st) as (evs & Htr & Hevs).
  destruct (logv_frame m st) as (_ & _ & Hq & Hc & _).
  apply (tableState_events E st _ evs Htr); try assumption.
  eapply Forall_impl; [exact Hevs |].
  intros [] [Hlog _]; simpl in Hlog |- *; try discriminate. exact I.
Qed.

Lemma loadSound_table (E : Env) (soundPath : string) (st : State) :
  soundPath ∈ phonicsFiles → tableState E st →
  tableState E (loadSound E soundPath st).2 ∧
  ∀ buffer format, (loadSound E soundPath st).1 = Ok (buffer, format) →
                   decodeAsset E soundPath = Ok buffer.
Proof.
  intros Hin (Ht & Hq & Hc).
  destruct (loadSound_trace E soundPath st) as (evs & Htr & Hevs).
  destruct (loadSound_frame E soundPath st) as (_ & _ & Hq1 & _).
  assert (Forall (tableEvent E) evs) as Hevs'.
  { eapply Forall_impl; [exact Hevs |].
    intros ev [-> | ->]; simpl; eauto. }
  destruct (soundCache st !! soundPath) as [cached |] eqn:Hlook.
  - rewrite (loadSound_hit E soundPath st cached Hlook). simpl.
    split; [split; auto |].
    intros buffer format [= <- _]. apply (Hc soundPath cached Hlook).
  - destruct (loadSound_miss_decodeAsset E soundPath st Hlook) as [Hr Hs].
    split.
    + split; [rewrite Htr; apply Forall_app_2; assumption |].
      split; [rewrite Hq1; exact Hq |].
      rewrite Hs. destruct (decodeAsset E soundPath) as [b | err] eqn:Hd;
        [| exact Hc].
      intros k kb. rewrite lookup_insert. case_decide as Hk.
      * intros [= <-]. subst k. auto.
      * apply Hc.
    + intros buffer format. rewrite Hr.
      destruct (decodeAsset E soundPath) as [b | err]; [| discriminate].
      intros [= <- _]. reflexivity.
Qed.

Lemma playSound_table (E : Env) (soundPath : string) (st : State) :
  soundPath ∈ phonicsFiles → tableState E st →
  tableState E (playSound E soundPath st).
Proof.
  intros Hin Hst. unfold playSound.
  destruct (loadSound_table E soundPath st Hin Hst) as [Hst1 Hdec].
  destruct (loadSound E soundPath st) as [r st1]; simpl in Hst1, Hdec.
  destruct r as [[buffer format] | err]; [| apply tableState_logv, Hst1].
  pose proof (Hdec buffer format eq_refl) as Hb.
  assert (∀ s, tableState E s →
            tableState E
              (emit (EvPlay soundPath buffer)
                 (set_speaker
                    (mixer s ++ [mkVoice soundPath (buf_data buffer)
                                   (nextDone s)])
                    (AwaitDone (nextDone s)) (S (nextDone s)) s)))
    as Hplay.
  { intros s Hs.
    apply (tableState_events E s _ [EvPlay soundPath buffer]);
      try reflexivity; [| exact Hs].
    apply Forall_cons_2; [split; assumption | apply Forall_nil_2]. }
  destruct (speakerInitialized st1); [apply Hplay, Hst1 |].
  unfold initSpeaker.
  destruct (speakerInitialized st1); [apply Hplay, Hst1 |].
  assert (tableState E (emit (EvSpeakerInit 44100 734) st1)) as Hinit.
  { apply (tableState_events E st1 _ [EvSpeakerInit 44100 734]);
      try reflexivity; [| exact Hst1]. repeat constructor. }
  change (SampleRate_N (SampleRate canonicalFormat) (1000000000 / 60))
    with 734.
  change (SampleRate canonicalFormat) with 44100.
  destruct (speaker_Init E 44100 734) as [u | err].
  - apply Hplay.
    apply (tableState_ext E (emit (EvSpeakerInit 44100 734) st1));
      try reflexivity. exact Hinit.
  - apply tableState_logv, Hinit.
Qed.

Lemma handleKeyPress_table (E : Env) (char : Z) (st : State) :
  tableState E st → tableState E (handleKeyPress char st).
Proof.
  intros (Ht & Hq & Hc).
  destruct (handleKeyPress_events char st) as (evs & Htr & Hevs).
  destruct (handleKeyPress_frame char st) as (_ & _ & Hc' & _).
  split; [| split].
  - rewrite Htr. apply Forall_app_2; [exact Ht |].
    eapply Forall_impl; [exact Hevs |].
    intros [] Hev; simpl in Hev |- *; try contradiction; auto.
  - destruct (handleKeyPress_queue_shape char st)
      as [-> | (f & Hchar & _ & ->)]; [exact Hq |].
    apply Forall_app_2; [exact Hq |].
    apply Forall_cons_2; [| apply Forall_nil_2].
    exact (phonicsMap_files _ _ Hchar).
  - rewrite Hc'. exact Hc.
Qed.

Lemma handleEvent_table (E : Env) (ev : HookEvent) (st : State) :
  tableState E st → tableState E (handleEvent E ev st).
Proof.
  intros Hst. unfold handleEvent.
  set (st1 := logv _ st).
  assert (tableState E st1) as Hst1 by apply tableState_logv, Hst.
  clearbody st1.
  destruct (Kind ev =? 3); [| exact Hst1].
  destruct (negb (Keychar ev =? 0)).
  - apply handleKeyPress_table, Hst1.
  - apply tableState_logv, Hst1.
Qed.

Lemma step_table (E : Env) (a : Action) (st : State) :
  tableState E st → tableState E (step E a st).
Proof.
  intros Hst. unfold step. destruct (exited st); [exact Hst |].
  destruct a as [ev | | |].
  - apply handleEvent_table, Hst.
  - apply (tableState_events E st _ [EvLog LogExiting]);
      try reflexivity; [| exact Hst]. repeat constructor.
  - destruct (soundPlayer_shape E st) as [-> | (f & q & _ & Hq & ->)];
      [exact Hst |].
    destruct Hst as (Ht & Hqs & Hc). rewrite Hq in Hqs.
    apply Forall_cons in Hqs as [Hf Hqs].
    apply playSound_table; [exact Hf |].
    split; [| split]; simpl; try assumption.
    apply Forall_app_2; [exact Ht |].
    apply Forall_cons_2; [exact Hf | apply Forall_nil_2].
  - destruct (speakerUpdate_events st) as (evs & Htr & Hevs).
    destruct (speakerUpdate_frame st) as (_ & _ & Hq & Hc & _).
    apply (tableState_events E st _ evs Htr); try assumption.
    eapply Forall_impl; [exact Hevs |].
    intros [] Hev; simpl in Hev |- *; try contradiction; exact I.
Qed.

Lemma run_table (E : Env) (sched : list Action) (st : State) :
  tableState E st → tableState E (run E sched st).
Proof.
  revert st. induction sched as [|a sched IH]; intros st Hst; simpl.
  - exact Hst.
  - apply IH, step_table, Hst.
Qed.

Lemma preloadSounds_table (E : Env) (order : list string) (st : State) :
  Forall (fun soundFile => soundFile ∈ phonicsFiles) order →
  tableState E st → tableState E (preloadSounds E order st).
Proof.
  intros Horder Hst. unfold preloadSounds. apply tableState_logv.
  assert (tableState E (logv LogPreloading st)) as H0
    by apply tableState_logv, Hst.
  revert H0. generalize (logv LogPreloading st).
  induction Horder as [|f order Hf _ IH]; intros s Hs; simpl; [exact Hs |].
  apply IH. unfold preloadOne.
  destruct (loadSound_table E f s Hf Hs) as [Hs1 _].
  destruct (loadSound E f s) as [[ok | err] s1]; simpl in Hs1;
    [exact Hs1 | apply tableState_logv, Hs1].
Qed.

Lemma main_table (E : Env) (args order : list string)
    (sched : list Action) :
  order ≡ₚ phonicsFiles → tableState E (main E args order sched).
Proof.
  intros Hperm.
  assert (Forall (fun soundFile => soundFile ∈ phonicsFiles) order) as Horder.
  { apply Forall_forall. intros f Hf. rewrite <- Hperm. exact Hf. }
  assert (tableState E (idleState (isVerboseFlag args) false [] ∅)) as H0.
  { split; [constructor | split; [constructor |]].
    intros k b Hk. cbn [soundCache idleState] in Hk.
    rewrite lookup_empty in Hk. discriminate. }
  assert (∀ m s, tableState E s → tableState E (emit (EvLog m) s)) as Hlog.
  { intros m s Hs.
    apply (tableState_events E s _ [EvLog m]); try reflexivity;
      [| exact Hs]. repeat constructor. }
  unfold main. destruct (isHelpFlag args).
  { apply (tableState_ext E (emit (EvLog LogHelp)
                               (idleState (isVerboseFlag args) false [] ∅)));
      try reflexivity. apply Hlog, H0. }
  set (s0 := emit (EvLog LogBanner) _).
  assert (tableState E s0) as Hs0 by apply Hlog, H0.
  assert (tableState E (initSpeaker E s0).2) as Hs1.
  { unfold initSpeaker. destruct (speakerInitialized s0); [exact Hs0 |].
    change (SampleRate_N (SampleRate canonicalFormat) (1000000000 / 60))
      with 734.
    change (SampleRate canonicalFormat) with 44100.
    set (s := emit (EvSpeakerInit 44100 734) s0).
    assert (tableState E s) as Hs.
    { apply (tableState_events E s0 _ [EvSpeakerInit 44100 734]);
        try reflexivity; [| exact Hs0]. repeat constructor. }
    destruct (speaker_Init E _ _); simpl; [| exact Hs].
    apply (tableState_ext E s); try reflexivity. exact Hs. }
  destruct (initSpeaker E s0) as [[u | err] s1]; simpl in Hs1.
  - apply run_table, Hlog, preloadSounds_table; assumption.
  - apply (tableState_ext E (emit (EvLog (LogFatal err)) s1));
      try reflexivity. apply Hlog, Hs1.
Qed.

Lemma phonicsFiles_NoDup : NoDup phonicsFiles.
Proof.
  refine (bool_decide_unpack (NoDup phonicsFiles) _).
  vm_compute. exact I.
Qed.

(** X10. In a run of [main] the cache stays true to the assets and bounded:
    every entry is keyed by one of the files of the letter table and holds
    the decoding of that file's asset, so the cache never has more than 26
    entries. *)
Theorem cache_holds_table_assets (E : Env) (args order : list string)
    (sched : list Action) :
  order ≡ₚ phonicsFiles →
  let st := main E args order sched in
  (∀ soundFile buffer, soundCache st !! soundFile = Some buffer →
     soundFile ∈ phonicsFiles ∧ decodeAsset E soundFile = Ok buffer) ∧
  (size (soundCache st) ≤ 26)%nat.
Proof.
  intros Hperm st.
  destruct (main_table E args order sched Hperm) as (_ & _ & Hc).
  fold st in Hc. split; [exact Hc |].
  rewrite <- size_dom.
  assert (dom (soundCache st) ⊆ list_to_set (C := gset string) phonicsFiles)
    as Hsub.
  { intros k Hk. apply elem_of_dom in Hk as [b Hb].
    apply elem_of_list_to_set. apply (Hc k b Hb). }
  apply subseteq_size in Hsub.
  rewrite (size_list_to_set phonicsFiles phonicsFiles_NoDup) in Hsub.
  exact Hsub.
Qed.

Lemma cache_holds_table_assets_witness :
  (size (soundCache (main Demo.env ["phonical"] phonicsFiles
                       [AHook (Demo.keyDown (rune "c")); APlayer]))
   ≤ 26)%nat.
Proof.
  exact (proj2 (cache_holds_table_assets Demo.env ["phonical"] phonicsFiles
                  [AHook (Demo.keyDown (rune "c")); APlayer]
                  ltac:(reflexivity))).
Defined.

(** X11. A run of [main] touches the files of the letter table only: every
    file it opens is [sounds/] followed by one of the 26 files of the
    table, every identifier it sends, receives, decodes or plays is one of
    them, as is every identifier waiting in the queue, and what it plays
    for an identifier is the decoding of that identifier's asset. *)
Theorem only_table_files_are_touched (E : Env) (args order : list string)
    (sched : list Action) :
  order ≡ₚ phonicsFiles →
  let st := main E args order sched in
  Forall (tableEvent E) (trace st) ∧
  Forall (fun soundFile => soundFile ∈ phonicsFiles) (playQueue st) ∧
  (∀ name, name ∈ opened (trace st) →
     ∃ soundFile, soundFile ∈ phonicsFiles ∧
                  name = "sounds/" +:+ soundFile).
Proof.
  intros Hperm st.
  destruct (main_table E args order sched Hperm) as (Ht & Hq & _).
  fold st in Ht, Hq. split; [exact Ht |]. split; [exact Hq |].
  intros name Hname. unfold opened in Hname.
  apply list_elem_of_omap in Hname as (ev & Hev & Hopen).
  rewrite Forall_forall in Ht. specialize (Ht ev Hev).
  destruct ev; simpl in Hopen; try discriminate.
  injection Hopen as ->. exact Ht.
Qed.

Lemma only_table_files_are_touched_witness :
  Forall (fun soundFile => soundFile ∈ phonicsFiles)
    (playQueue (main Demo.env ["phonical"] (reverse phonicsFiles)
                  [AHook (Demo.keyDown (rune "A"));
                   AHook (Demo.keyDown (rune "5"))])).
Proof.
  exact (proj1 (proj2 (only_table_files_are_touched Demo.env ["phonical"]
                         (reverse phonicsFiles)
                         [AHook (Demo.keyDown (rune "A"));
                          AHook (Demo.keyDown (rune "5"))]
                         (reverse_Permutation phonicsFiles)))).
Defined.

(** ** What is played *)

Lemma playSound_played (E : Env) (soundPath : string) (st : State) :
  speakerInitialized st = true →
  (∀ buffer, soundCache st !! soundPath = Some buffer →
             decodeAsset E soundPath = Ok buffer) →
  played (trace (playSound E soundPath st))
    = played (trace st) ++
        match clipOf E soundPath with
        | Some clip => [clip]
        | None => []
        end.
Proof.
  intros Hsi Hcoh. unfold playSound, clipOf.
  destruct (soundCache st !! soundPath) as [cached |] eqn:Hlook.
  - rewrite (loadSound_hit E soundPath st cached Hlook), Hsi.
    rewrite (Hcoh cached eq_refl). simpl. trace_simpl. reflexivity.
  - destruct (loadSound_miss_decodeAsset E soundPath st Hlook) as [Hr _].
    destruct (loadSound_trace E soundPath st) as (evs & Htr & Hevs).
    pose proof (loadSound_frame E soundPath st) as Hf.
    assert (played evs = []) as Hpl.
    { eapply omap_Forall_None; [exact Hevs |].
      intros ev [-> | ->]; reflexivity. }
    destruct (loadSound E soundPath st) as [r st1]; simpl in Hr, Htr, Hf.
    destruct Hf as (_ & Hsi1 & _). rewrite Hsi in Hsi1. subst r.
    destruct (decodeAsset E soundPath) as [buffer | err].
    + rewrite Hsi1. simpl. unfold played in *.
      rewrite Htr, !omap_app, Hpl, app_nil_r. reflexivity.
    + destruct (logv_events (LogLoadFailed soundPath err) st1)
        as (logs & Hl & Hlogs).
      assert (played logs = []) as Hpl'.
      { eapply omap_Forall_None; [exact Hlogs |].
        intros [] [Hlog _]; simpl in Hlog |- *; try discriminate;
          reflexivity. }
      unfold played in *.
      rewrite Hl, Htr, !omap_app, Hpl, Hpl', !app_nil_r. reflexivity.
Qed.

Lemma step_played (E : Env) (a : Action) (st : State) :
  tableState E st → speakerInitialized st = true →
  played (trace st) = omap (clipOf E) (received (trace st)) →
  played (trace (step E a st))
    = omap (clipOf E) (received (trace (step E a st))).
Proof.
  intros (_ & _ & Hc) Hsi Hinv. unfold step.
  destruct (exited st); [exact Hinv |].
  destruct a as [ev | | |].
  - destruct (handleEvent_events E ev st) as (evs & Htr & Hevs).
    destruct (producer_readers _ evs Hevs) as (_ & _ & Hpl & _ & Hrc & _).
    unfold played, received in *.
    rewrite !(omap_trace_app _ st _ evs Htr), Hpl, Hrc, !app_nil_r.
    exact Hinv.
  - simpl. unfold played, received in *.
    rewrite !omap_app, !app_nil_r. exact Hinv.
  - destruct (soundPlayer_shape E st) as [-> | (f & q & _ & _ & ->)];
      [exact Hinv |].
    set (st0 := emit (EvRecv f) (set_playQueue q st)).
    rewrite (playSound_played E f st0 Hsi).
    2: { intros buffer Hb. apply (Hc f buffer Hb). }
    destruct (playSound_events E f st0) as (evs & Htr & Hevs).
    destruct (consumer_readers _ _ _ _ Hevs) as (_ & _ & Hrc & _).
    unfold played, received in *.
    rewrite (omap_trace_app _ st0 _ evs Htr), Hrc, app_nil_r.
    unfold st0. simpl. rewrite !omap_app, app_nil_r, Hinv. simpl.
    destruct (clipOf E f); reflexivity.
  - destruct (speakerUpdate_events st) as (evs & Htr & Hevs).
    destruct (speaker_readers evs Hevs) as (_ & _ & Hrc & Hpl & _).
    unfold played, received in *.
    rewrite !(omap_trace_app _ st _ evs Htr), Hpl, Hrc, !app_nil_r.
    exact Hinv.
Qed.

Lemma run_played (E : Env) (sched : list Action) (st : State) :
  tableState E st → speakerInitialized st = true →
  played (trace st) = omap (clipOf E) (received (trace st)) →
  played (trace (run E sched st))
    = omap (clipOf E) (received (trace (run E sched st))).
Proof.
  revert st. induction sched as [|a sched IH]; intros st Ht Hsi Hinv;
    [exact Hinv |].
  change (run E (a :: sched) st) with (run E sched (step E a st)).
  apply IH.
  - apply step_table, Ht.
  - apply step_initialized, Hsi.
  - apply step_played; assumption.
Qed.

(** The state in which [main] enters its event loop, or has exited. *)
Lemma main_startup (E : Env) (args order : list string) :
  let st := main E args order [] in
  sends (trace st) = [] ∧ received (trace st) = [] ∧
  played (trace st) = [] ∧ playQueue st = [] ∧
  (exited st = true ∨
   exited st = false ∧ speakerInitialized st = true ∧
   ∃ s1, soundCache s1 = ∅ ∧
         soundCache st = soundCache (preloadSounds E order s1)).
Proof.
  unfold main. destruct (isHelpFlag args).
  { simpl. repeat split; auto. }
  set (s0 := emit (EvLog LogBanner) _).
  unfold initSpeaker.
  change (speakerInitialized s0) with false. cbv iota.
  destruct (speaker_Init E _ _) as [u | err].
  2: { simpl. repeat split; auto. }
  set (s1 := set_speakerInitialized true _).
  destruct (preloadSounds_frame E order s1)
    as (_ & Hsi & Hq & _ & _ & _ & Hx).
  destruct (preloadSounds_events E order s1) as (evs & Htr & Hevs).
  destruct (preload_readers _ evs Hevs) as (Hs & _ & Hr & Hpl & _).
  cbv zeta. simpl run. cbn [emit trace playQueue exited speakerInitialized
                             soundCache].
  unfold sends, received, played in *.
  rewrite !omap_app, !(omap_trace_app _ s1 _ evs Htr), Hs, Hr, Hpl.
  repeat split; try reflexivity; try exact Hq.
  right. split; [exact Hx |]. split; [exact Hsi |].
  exists s1. split; reflexivity.
Qed.

(** X12. In a run of [main], what is played is decided by the assets
    alone: the clips handed to the speaker are, in the order of their
    receipt, the received identifiers whose asset decodes, each with the
    decoding of its asset; a received identifier whose asset does not
    decode is passed over, and nothing else is ever played. *)
Theorem plays_what_decodes (E : Env) (args order : list string)
    (sched : list Action) :
  order ≡ₚ phonicsFiles →
  played (trace (main E args order sched))
    = omap (clipOf E) (received (trace (main E args order sched))).
Proof.
  intros Hperm. rewrite main_run.
  pose proof (main_table E args order [] Hperm) as Ht.
  destruct (main_startup E args order)
    as (_ & Hr & Hpl & _ & [Hx | (_ & Hsi & _)]).
  - rewrite (run_exited E sched _ Hx), Hr, Hpl. reflexivity.
  - apply run_played; [exact Ht | exact Hsi |].
    rewrite Hr, Hpl. reflexivity.
Qed.

Lemma plays_what_decodes_witness :
  let st := main Demo.env ["phonical"] phonicsFiles
              [AHook (Demo.keyDown (rune "c"));
               AHook (Demo.keyDown (rune "a")); APlayer; APlayer] in
  played (trace st) = omap (clipOf Demo.env) (received (trace st)).
Proof.
  exact (plays_what_decodes Demo.env ["phonical"] phonicsFiles
           [AHook (Demo.keyDown (rune "c"));
            AHook (Demo.keyDown (rune "a")); APlayer; APlayer]
           ltac:(reflexivity)).
Defined.

(** ** Playback after preloading *)

Lemma playSound_hit_io (E : Env) (soundPath : string) (st : State)
    (buffer : Buffer) :
  soundCache st !! soundPath = Some buffer →
  fileIO (trace (playSound E soundPath st)) = fileIO (trace st).
Proof.
  intros Hlook. unfold playSound.
  rewrite (loadSound_hit E soundPath st buffer Hlook).
  unfold initSpeaker, logv.
  destruct (speakerInitialized st); [simpl; trace_simpl; reflexivity |].
  destruct (speaker_Init E _ _); simpl; [trace_simpl; reflexivity |].
  destruct (verbose st); simpl; trace_simpl; reflexivity.
Qed.

Lemma step_cached_io (E : Env) (a : Action) (st : State) :
  (∀ soundFile, soundFile ∈ phonicsFiles →
                is_Some (soundCache st !! soundFile)) →
  Forall (fun soundFile => soundFile ∈ phonicsFiles) (playQueue st) →
  fileIO (trace (step E a st)) = fileIO (trace st) ∧
  (∀ soundFile, soundFile ∈ phonicsFiles →
                is_Some (soundCache (step E a st) !! soundFile)).
Proof.
  intros Hall Hq. split.
  2: { intros f Hf. destruct (Hall f Hf) as [b Hb]. exists b.
       apply step_keeps_entry, Hb. }
  unfold step. destruct (exited st); [reflexivity |].
  destruct a as [ev | | |].
  - destruct (handleEvent_events E ev st) as (evs & Htr & Hevs).
    destruct (producer_readers _ evs Hevs) as (_ & Hio & _).
    unfold fileIO in *.
    rewrite (omap_trace_app _ st _ evs Htr), Hio, app_nil_r. reflexivity.
  - simpl. unfold fileIO. rewrite omap_app, app_nil_r. reflexivity.
  - destruct (soundPlayer_shape E st) as [-> | (f & q & _ & Hqf & ->)];
      [reflexivity |].
    rewrite Hqf in Hq. apply Forall_cons in Hq as [Hf _].
    destruct (Hall f Hf) as [b Hb].
    rewrite (playSound_hit_io E f (emit (EvRecv f) (set_playQueue q st))
               b Hb).
    simpl.
    unfold fileIO. rewrite omap_app, app_nil_r. reflexivity.
  - destruct (speakerUpdate_events st) as (evs & Htr & Hevs).
    destruct (speaker_readers evs Hevs) as (_ & _ & _ & _ & Hio & _).
    unfold fileIO in *.
    rewrite (omap_trace_app _ st _ evs Htr), Hio, app_nil_r. reflexivity.
Qed.

Lemma run_cached_io (E : Env) (sched : list Action) (st : State) :
  tableState E st →
  (∀ soundFile, soundFile ∈ phonicsFiles →
                is_Some (soundCache st !! soundFile)) →
  fileIO (trace (run E sched st)) = fileIO (trace st) ∧
  (∀ soundFile, soundFile ∈ phonicsFiles →
                is_Some (soundCache (run E sched st) !! soundFile)).
Proof.
  revert st. induction sched as [|a sched IH]; intros st Ht Hall;
    [auto |].
  change (run E (a :: sched) st) with (run E sched (step E a st)).
  destruct (step_cached_io E a st Hall (proj1 (proj2 Ht))) as [Hio Hall'].
  destruct (IH _ (step_table E a st Ht) Hall') as [Hio' Hall''].
  rewrite Hio', Hio. auto.
Qed.

(** X13. When all 26 assets load, preloading makes playback free of file
    access: once [main] has entered its event loop every file of the table
    is cached, and whatever keys are pressed and clips played afterwards,
    no file is opened or decoded again, the cache staying at exactly 26
    entries. *)
Theorem preloaded_playback_reads_no_file (E : Env)
    (args order : list string) (sched : list Action) :
  order ≡ₚ phonicsFiles →
  forallb (loads E) phonicsFiles = true →
  let st := main E args order sched in
  fileIO (trace st) = fileIO (trace (main E args order [])) ∧
  (exited (main E args order []) = false →
   (∀ soundFile, soundFile ∈ phonicsFiles →
                 is_Some (soundCache st !! soundFile)) ∧
   size (soundCache st) = 26%nat).
Proof.
  intros Hperm Hloads st. unfold st. rewrite main_run.
  pose proof (main_table E args order [] Hperm) as Ht.
  destruct (main_startup E args order)
    as (_ & _ & _ & _ & [Hx | (Hx & _ & s1 & Hempty & Hcache)]).
  { rewrite (run_exited E sched _ Hx). split; [reflexivity | congruence]. }
  assert (∀ soundFile, soundFile ∈ phonicsFiles →
            is_Some (soundCache (main E args order []) !! soundFile))
    as Hall.
  { intros f Hf. rewrite Hcache. unfold preloadSounds.
    rewrite logv_cache. apply preload_fold_cached.
    - rewrite Hperm. exact Hf.
    - rewrite forallb_forall in Hloads. apply Hloads.
      apply list_elem_of_In, Hf. }
  destruct (run_cached_io E sched _ Ht Hall) as [Hio Hall'].
  split; [exact Hio |]. intros _. split; [exact Hall' |].
  destruct (run_table E sched _ Ht) as (_ & _ & Hc).
  rewrite <- size_dom.
  assert (dom (soundCache (run E sched (main E args order [])))
          = list_to_set (C := gset string) phonicsFiles) as ->.
  { apply set_eq. intros k. rewrite elem_of_dom, elem_of_list_to_set.
    split; [intros [b Hb]; apply (Hc k b Hb) | apply Hall']. }
  apply (size_list_to_set phonicsFiles phonicsFiles_NoDup).
Qed.

Lemma preloaded_playback_reads_no_file_witness :
  let sched := [AHook (Demo.keyDown (rune "a")); APlayer;
                ASpeaker; ASpeaker; ASpeaker;
                AHook (Demo.keyDown (rune "B")); APlayer] in
  fileIO (trace (main Studio.env ["phonical"] phonicsFiles sched))
    = fileIO (trace (main Studio.env ["phonical"] phonicsFiles [])) ∧
  size (soundCache (main Studio.env ["phonical"] phonicsFiles sched))
    = 26%nat.
Proof.
  pose proof (preloaded_playback_reads_no_file Studio.env ["phonical"]
                phonicsFiles
                [AHook (Demo.keyDown (rune "a")); APlayer;
                 ASpeaker; ASpeaker; ASpeaker;
                 AHook (Demo.keyDown (rune "B")); APlayer]
                ltac:(reflexivity)
                ltac:(vm_compute; reflexivity)) as [H1 H2].
  split; [exact H1 |].
  exact (proj2 (H2 ltac:(vm_compute; reflexivity))).
Defined.

(** ** From a key to the end of its clip *)

Lemma speaker_streams (E : Env) (left : list Sample) :
  ∀ (st : State) (path : string) (done : nat),
    exited st = false →
    mixer st = [mkVoice path left done] →
    player st = AwaitDone done →
    let st' := run E (replicate (S (length left)) ASpeaker) st in
    mixer st' = [] ∧ player st' = AtRange ∧
    trace st' = trace st ++ replicate (length left) (EvFrame [path])
                  ++ [EvDone path] ∧
    playQueue st' = playQueue st ∧ soundCache st' = soundCache st ∧
    exited st' = false.
Proof.
  induction left as [|x left IH]; intros st path done Hx Hm Hp.
  - cbn [length replicate]. cbv zeta.
    change (run E [ASpeaker] st) with (step E ASpeaker st).
    unfold step. rewrite Hx. unfold speakerUpdate. rewrite Hm, Hp.
    cbn [firstDrained isDrained v_left v_done v_path].
    rewrite Nat.eqb_refl. simpl. repeat split; auto.
  - cbn [length]. cbv zeta.
    change (replicate (S (S (length left))) ASpeaker)
      with (ASpeaker :: replicate (S (length left)) ASpeaker).
    change (run E (ASpeaker :: replicate (S (length left)) ASpeaker) st)
      with (run E (replicate (S (length left)) ASpeaker)
              (step E ASpeaker st)).
    assert (step E ASpeaker st
            = emit (EvFrame [path])
                (set_speaker [mkVoice path left done] (AwaitDone done)
                   (nextDone st) st)) as ->.
    { unfold step. rewrite Hx. unfold speakerUpdate. rewrite Hm, Hp.
      reflexivity. }
    destruct (IH (emit (EvFrame [path])
                    (set_speaker [mkVoice path left done] (AwaitDone done)
                       (nextDone st) st)) path done Hx eq_refl eq_refl)
      as (H1 & H2 & H3 & H4 & H5 & H6).
    repeat split; try assumption.
    rewrite H3. simpl. rewrite <- app_assoc. reflexivity.
Qed.

(** X14. A clip that [playSound] starts is streamed in full and then
    releases the consumer: with the speaker open and idle and the clip
    cached, [playSound] hands the whole buffer to the speaker and waits;
    after as many speaker updates as the buffer has frames, and one more
    for the done signal, every frame has gone to the device, from this clip
    alone, the done signal has been taken, and the consumer is back at its
    receive with the speaker empty. *)
Theorem started_clip_is_streamed_in_full (E : Env) (soundPath : string)
    (st : State) (buffer : Buffer) :
  exited st = false →
  speakerInitialized st = true →
  mixer st = [] →
  soundCache st !! soundPath = Some buffer →
  let frames := length (buf_data buffer) in
  let st1 := playSound E soundPath st in
  let st2 := run E (replicate (S frames) ASpeaker) st1 in
  player st1 = AwaitDone (nextDone st) ∧
  mixer st1 = [mkVoice soundPath (buf_data buffer) (nextDone st)] ∧
  trace st2 = trace st ++ [EvPlay soundPath buffer]
                ++ replicate frames (EvFrame [soundPath])
                ++ [EvDone soundPath] ∧
  player st2 = AtRange ∧
  mixer st2 = [].
Proof.
  intros Hx Hsi Hm Hlook frames st1 st2.
  assert (st1 = emit (EvPlay soundPath buffer)
                  (set_speaker
                     [mkVoice soundPath (buf_data buffer) (nextDone st)]
                     (AwaitDone (nextDone st)) (S (nextDone st)) st))
    as Hst1.
  { unfold st1, playSound.
    rewrite (loadSound_hit E soundPath st buffer Hlook), Hsi, Hm.
    reflexivity. }
  destruct (speaker_streams E (buf_data buffer) st1 soundPath (nextDone st))
    as (H1 & H2 & H3 & _); try (rewrite Hst1; simpl; auto; fail).
  fold frames in H3. fold st2 in H1, H2, H3.
  rewrite Hst1 in H3 |- *. simpl in H3 |- *.
  rewrite <- app_assoc in H3. auto.
Qed.

Lemma started_clip_is_streamed_in_full_witness :
  let st := (loadSound Demo.env "a.wav" Demo.start).2 in
  let st2 := run Demo.env [ASpeaker; ASpeaker; ASpeaker]
               (playSound Demo.env "a.wav" st) in
  trace st2 = trace st ++ [EvPlay "a.wav"
                             (mkBuffer (mkFormat 44100 2 2) [(1, 2); (3, 4)]);
                           EvFrame ["a.wav"]; EvFrame ["a.wav"];
                           EvDone "a.wav"] ∧
  player st2 = AtRange.
Proof.
  pose proof (started_clip_is_streamed_in_full Demo.env "a.wav"
                (loadSound Demo.env "a.wav" Demo.start).2
                (mkBuffer (mkFormat 44100 2 2) [(1, 2); (3, 4)])
                ltac:(reflexivity) ltac:(reflexivity) ltac:(reflexivity)
                ltac:(vm_compute; reflexivity))
    as (_ & _ & H3 & H4 & _).
  split; [exact H3 | exact H4].
Defined.

Lemma handleKeyPress_room (char : Z) (soundFile : string) (st : State) :
  phonicsMap !! char = Some soundFile →
  (length (playQueue st) < playQueue_cap)%nat →
  playQueue (handleKeyPress char st) = playQueue st ++ [soundFile].
Proof.
  intros Hchar Hroom. unfold handleKeyPress. rewrite Hchar.
  apply Nat.ltb_lt in Hroom. unfold logv, chan_trySend.
  destruct (verbose st) eqn:Hv; simpl; rewrite Hroom; reflexivity.
Qed.

(** X17. A key press plays its letter: when a key-down event whose
    character dispatch maps to a file arrives while the queue is empty, the
    consumer stands at its receive, the speaker is open and the file is
    cached, then after the event and one turn of the consumer that file's
    cached clip has been handed to the speaker, and nothing else; the queue
    is empty again and the consumer waits for the clip to end. *)
Theorem key_press_plays_its_letter (E : Env) (rawcode key keycode : Z)
    (st : State) (soundFile : string) (buffer : Buffer) :
  dispatch E key = Some soundFile →
  exited st = false →
  player st = AtRange →
  playQueue st = [] →
  speakerInitialized st = true →
  soundCache st !! soundFile = Some buffer →
  let st' := run E [AHook (mkHookEvent 3 rawcode key keycode); APlayer] st in
  sends (trace st') = sends (trace st) ++ [(soundFile, true)] ∧
  received (trace st') = received (trace st) ++ [soundFile] ∧
  played (trace st') = played (trace st) ++ [(soundFile, buffer)] ∧
  fileIO (trace st') = fileIO (trace st) ∧
  playQueue st' = [] ∧
  player st' = AwaitDone (nextDone st).
Proof.
  intros Hd Hx Hp Hq Hsi Hlook st'.
  set (ev := mkHookEvent 3 rawcode key keycode).
  set (st1 := handleEvent E ev st).
  assert (st' = soundPlayer E st1) as Hst'.
  { unfold st'. simpl. unfold step at 2. rewrite Hx.
    fold ev. fold st1. unfold step.
    destruct (handleEvent_frame E ev st) as (_ & _ & _ & _ & _ & _ & Hx1).
    fold st1 in Hx1. rewrite Hx1, Hx. reflexivity. }
  destruct (handleEvent_frame E ev st) as (_ & Hsi1 & Hc1 & _ & Hp1 & Hn1 & _).
  fold st1 in Hsi1, Hc1, Hp1, Hn1.
  destruct (handleEvent_events E ev st) as (evs & Htr & Hevs).
  destruct (producer_readers _ evs Hevs) as (_ & Hio & Hpl & _ & Hrc & _).
  fold st1 in Htr.
  pose proof (handleEvent_sends E ev st) as Hs.
  fold st1 in Hs. cbn [Kind Keychar ev] in Hs.
  rewrite Hd, Hq in Hs. cbn [Z.eqb Pos.eqb] in Hs.
  change ((length (@nil string) <? playQueue_cap)%nat) with true in Hs.
  assert (playQueue st1 = [soundFile]) as Hq1.
  { unfold dispatch in Hd. destruct (key =? 0) eqn:Hk; [discriminate |].
    unfold st1, handleEvent.
    cbn [Kind Keychar Rawcode Keycode ev Z.eqb Pos.eqb].
    rewrite Hk. cbn [negb].
    set (s := logv (LogHookEvent 3 rawcode key keycode) st).
    assert (playQueue s = []) as Hqs
      by (unfold s; rewrite <- Hq; apply logv_frame).
    rewrite (handleKeyPress_room (lowerKeychar E key) soundFile s Hd).
    - rewrite Hqs. reflexivity.
    - rewrite Hqs. unfold playQueue_cap. simpl. lia. }
  assert (soundPlayer E st1
          = playSound E soundFile
              (emit (EvRecv soundFile) (set_playQueue [] st1))) as Hsp.
  { unfold soundPlayer. rewrite Hp1, Hp, Hq1. reflexivity. }
  set (st0 := emit (EvRecv soundFile) (set_playQueue [] st1)) in *.
  assert (soundCache st0 !! soundFile = Some buffer) as Hlook0.
  { unfold st0. simpl. rewrite Hc1. exact Hlook. }
  assert (playSound E soundFile st0
          = emit (EvPlay soundFile buffer)
              (set_speaker
                 (mixer st0 ++ [mkVoice soundFile (buf_data buffer)
                                  (nextDone st0)])
                 (AwaitDone (nextDone st0)) (S (nextDone st0)) st0)) as Hplay.
  { unfold playSound.
    rewrite (loadSound_hit E soundFile st0 buffer Hlook0).
    change (speakerInitialized st0) with (speakerInitialized st1).
    rewrite Hsi1, Hsi. reflexivity. }
  rewrite Hst', Hsp, Hplay. simpl.
  unfold sends, received, played, fileIO in *.
  rewrite !omap_app, !(omap_trace_app _ st st1 evs Htr), Hio, Hpl, Hrc.
  simpl. rewrite !app_nil_r.
  rewrite (omap_trace_app _ st st1 evs Htr) in Hs.
  rewrite Hs, Hn1. repeat split; reflexivity.
Qed.

Lemma key_press_plays_its_letter_witness :
  let st := (loadSound Demo.env "a.wav" Demo.start).2 in
  played (trace (run Demo.env [AHook (Demo.keyDown (rune "A")); APlayer] st))
    = [("a.wav", mkBuffer (mkFormat 44100 2 2) [(1, 2); (3, 4)])].
Proof.
  pose proof (key_press_plays_its_letter Demo.env 0 (rune "A") 0
                (loadSound Demo.env "a.wav" Demo.start).2 "a.wav"
                (mkBuffer (mkFormat 44100 2 2) [(1, 2); (3, 4)])
                ltac:(vm_compute; reflexivity) ltac:(reflexivity)
                ltac:(reflexivity) ltac:(reflexivity) ltac:(reflexivity)
                ltac:(vm_compute; reflexivity))
    as (_ & _ & H3 & _).
  exact H3.
Defined.

(** ** Key presses that outrun the consumer *)

Lemma handleEvent_queue_exact (E : Env) (ev : HookEvent) (st : State) :
  playQueue (handleEvent E ev st)
    = match keyFile E ev with
      | Some soundFile =>
          if (length (playQueue st) <? playQueue_cap)%nat
          then playQueue st ++ [soundFile] else playQueue st
      | None => playQueue st
      end.
Proof.
  unfold handleEvent, keyFile, dispatch.
  set (s := logv _ st).
  assert (playQueue s = playQueue st) as Hqs by apply logv_frame.
  destruct (Kind ev =? 3); [| exact Hqs].
  destruct (Keychar ev =? 0); cbn [negb].
  { rewrite <- Hqs. apply logv_frame. }
  destruct (phonicsMap !! lowerKeychar E (Keychar ev)) as [f |] eqn:Hf.
  - destruct (Nat.ltb_spec (length (playQueue st)) playQueue_cap)
      as [Hlt | Hge].
    + rewrite (handleKeyPress_room _ f s Hf); rewrite Hqs; auto.
    + destruct (handleKeyPress_queue_shape (lowerKeychar E (Keychar ev)) s)
        as [-> | (_ & _ & Hlt & _)]; [exact Hqs |].
      rewrite Hqs in Hlt. lia.
  - unfold handleKeyPress. rewrite Hf. exact Hqs.
Qed.

(** X4. Key presses that outrun the consumer are dropped newest first:
    after any burst of hook events with no consumer turn in between, the
    queue holds what it held before followed by the files of the key-downs
    in the order of arrival, cut off at 100 items; what does not fit is
    lost, and nothing that was queued is displaced. *)
Theorem burst_keeps_the_oldest (E : Env) (evs : list HookEvent)
    (st : State) :
  exited st = false →
  (length (playQueue st) ≤ playQueue_cap)%nat →
  playQueue (run E (AHook <$> evs) st)
    = take playQueue_cap (playQueue st ++ omap (keyFile E) evs).
Proof.
  revert st. induction evs as [|ev evs IH]; intros st Hx Hlen.
  - simpl. rewrite app_nil_r, take_ge; [reflexivity | exact Hlen].
  - change (run E (AHook <$> ev :: evs) st)
      with (run E (AHook <$> evs) (step E (AHook ev) st)).
    assert (step E (AHook ev) st = handleEvent E ev st) as ->
      by (unfold step; rewrite Hx; reflexivity).
    pose proof (handleEvent_queue_exact E ev st) as Hq.
    destruct (handleEvent_frame E ev st) as (_ & _ & _ & _ & _ & _ & Hx').
    rewrite Hx in Hx'.
    rewrite IH; [| exact Hx' |].
    + rewrite Hq. simpl. destruct (keyFile E ev) as [f |]; [| reflexivity].
      destruct (Nat.ltb_spec (length (playQueue st)) playQueue_cap)
        as [Hlt | Hge].
      * rewrite <- app_assoc. reflexivity.
      * rewrite !take_app_le by lia. reflexivity.
    + rewrite Hq. destruct (keyFile E ev) as [f |]; [| exact Hlen].
      destruct (Nat.ltb_spec (length (playQueue st)) playQueue_cap)
        as [Hlt | Hge]; [| exact Hlen].
      rewrite length_app. simpl. lia.
Qed.

Lemma burst_keeps_the_oldest_witness :
  playQueue (run Demo.env
               (AHook <$> (replicate 99 (Demo.keyDown (rune "a"))
                           ++ [Demo.keyDown (rune "b");
                               Demo.keyDown (rune "5");
                               Demo.keyDown (rune "c")]))
               Demo.start)
  = replicate 99 "a.wav" ++ ["b.wav"].
Proof.
  rewrite (burst_keeps_the_oldest Demo.env
             (replicate 99 (Demo.keyDown (rune "a"))
              ++ [Demo.keyDown (rune "b"); Demo.keyDown (rune "5");
                  Demo.keyDown (rune "c")])
             Demo.start ltac:(reflexivity) ltac:(vm_compute; lia)).
  vm_compute. reflexivity.
Defined.

(** * The queue from end to end *)

Lemma step_player_receives (E : Env) (st : State) (soundFile : string)
    (rest : list string) :
  exited st = false → player st = AtRange →
  playQueue st = soundFile :: rest →
  let st' := step E APlayer st in
  received (trace st') = received (trace st) ++ [soundFile] ∧
  accepted (trace st') = accepted (trace st) ∧
  playQueue st' = rest ∧
  exited st' = false.
Proof.
  intros Hx Hp Hq st'. unfold st', step. rewrite Hx.
  unfold soundPlayer. rewrite Hp, Hq. cbn [chan_recv].
  set (st0 := emit (EvRecv soundFile) (set_playQueue rest st)).
  destruct (playSound_frame E soundFile st0) as (_ & -> & -> & _).
  destruct (playSound_events E soundFile st0) as (evs & Htr & Hevs).
  destruct (consumer_readers _ _ _ _ Hevs) as (_ & Ha & Hr & _).
  unfold received, accepted in *.
  rewrite !(omap_trace_app _ st0 _ evs Htr), Ha, Hr, !app_nil_r.
  unfold st0. simpl. rewrite !omap_app, app_nil_r. auto.
Qed.

Lemma step_key_sends (E : Env) (st : State) (ev : HookEvent)
    (soundFile : string) :
  exited st = false → keyFile E ev = Some soundFile →
  (length (playQueue st) < playQueue_cap)%nat →
  let st' := step E (AHook ev) st in
  playQueue st' = playQueue st ++ [soundFile] ∧
  accepted (trace st') = accepted (trace st) ++ [soundFile] ∧
  received (trace st') = received (trace st) ∧
  exited st' = false.
Proof.
  intros Hx Hkey Hroom st'. unfold st', step. rewrite Hx.
  pose proof (handleEvent_queue_exact E ev st) as Hq.
  rewrite Hkey in Hq. apply Nat.ltb_lt in Hroom. rewrite Hroom in Hq.
  destruct (handleEvent_queue E ev st) as (new & Hnew & Hacc & Hrc & _).
  rewrite Hq in Hnew. apply app_inv_head in Hnew. subst new.
  destruct (handleEvent_frame E ev st) as (_ & _ & _ & _ & _ & _ & Hx').
  rewrite Hx in Hx'. auto.
Qed.

Lemma run_speaker_only (E : Env) (n : nat) (st : State) :
  let st' := run E (replicate n ASpeaker) st in
  playQueue st' = playQueue st ∧
  accepted (trace st') = accepted (trace st) ∧
  received (trace st') = received (trace st).
Proof.
  revert st. induction n as [|n IH]; intros st; [simpl; auto |].
  change (run E (replicate (S n) ASpeaker) st)
    with (run E (replicate n ASpeaker) (step E ASpeaker st)).
  destruct (IH (step E ASpeaker st)) as (H1 & H2 & H3).
  cbv zeta. rewrite H1, H2, H3. unfold step.
  destruct (exited st); [auto |]. apply speakerUpdate_queue.
Qed.

(** Enough speaker updates end the clip the consumer waits for. *)
Lemma finish_clip (E : Env) (st : State) :
  exited st = false → inTurn st →
  ∃ n, let st' := run E (replicate n ASpeaker) st in
       player st' = AtRange ∧ exited st' = false ∧ inTurn st'.
Proof.
  intros Hx Hin. destruct (player st) as [| done] eqn:Hp.
  { exists 0%nat. simpl. auto. }
  destruct (inTurn_facts st Hin) as (_ & _ & _ & Hwait).
  destruct (Hwait done Hp) as ([path left vdone] & Hm & Hd & _).
  simpl in Hd. subst vdone.
  destruct (speaker_streams E left st path done Hx Hm Hp)
    as (_ & H2 & _ & _ & _ & H6).
  exists (S (length left)). cbv zeta.
  split; [exact H2 |]. split; [exact H6 |]. apply run_inTurn, Hin.
Qed.

(** Given its turns, the consumer receives the whole queue in order. *)
Lemma consumer_drains (E : Env) (queue : list string) :
  ∀ st, exited st = false → inTurn st → playQueue st = queue →
    ∃ turns,
      Forall (fun a => a = APlayer ∨ a = ASpeaker) turns ∧
      let st' := run E turns st in
      received (trace st') = received (trace st) ++ queue ∧
      accepted (trace st') = accepted (trace st) ∧
      playQueue st' = [] ∧ exited st' = false.
Proof.
  induction queue as [|f rest IH]; intros st Hx Hin Hq.
  { exists []. split; [constructor |]. simpl.
    rewrite app_nil_r. auto. }
  destruct (finish_clip E st Hx Hin) as (n & Hp1 & Hx1 & Hin1).
  destruct (run_speaker_only E n st) as (Hq1 & Ha1 & Hr1).
  set (st1 := run E (replicate n ASpeaker) st) in *.
  rewrite Hq in Hq1.
  destruct (step_player_receives E st1 f rest Hx1 Hp1 Hq1)
    as (Hr2 & Ha2 & Hq2 & Hx2).
  set (st2 := step E APlayer st1) in *.
  destruct (IH st2 Hx2 (step_inTurn E APlayer st1 Hin1) Hq2)
    as (turns & Hturns & Hr3 & Ha3 & Hq3 & Hx3).
  exists (replicate n ASpeaker ++ APlayer :: turns). split.
  - apply Forall_app_2; [| apply Forall_cons_2; [auto | exact Hturns]].
    apply Forall_forall. intros a Ha.
    apply elem_of_replicate in Ha as [-> _]. auto.
  - cbv zeta. rewrite run_app. fold st1.
    change (run E (APlayer :: turns) st1) with (run E turns st2).
    rewrite Hr3, Ha3, Hr2, Ha2, Hr1, Ha1, <- app_assoc. auto.
Qed.

(** C2. The playback queue is first in, first out. Along every run, the
    identifiers the consumer has received followed by those still queued
    are the identifiers queued at the start followed by those the queue
    accepted, in that order. A key-down whose file the queue has room for
    puts that file at the tail of the queue; a turn of the consumer at its
    receive takes the head of the queue and nothing else. In particular
    three key-downs for A, B and C arriving at a queue with three free
    slots leave A, B, C at its tail, and with the turns that follow (of the
    consumer and the speaker only) the consumer receives what was queued
    before and then A, B and C, in that order, and the queue is empty. *)
Theorem playQueue_fifo (E : Env) (sched : list Action) (v si : bool)
    (q : list string) (c : gmap string Buffer) (st : State)
    (evA evB evC : HookEvent) (A B C : string) :
  (let s := run E sched (idleState v si q c) in
   q ++ accepted (trace s) = received (trace s) ++ playQueue s) ∧
  (∀ (s : State) (ev : HookEvent) (soundFile : string),
     exited s = false → keyFile E ev = Some soundFile →
     (length (playQueue s) < playQueue_cap)%nat →
     let s' := step E (AHook ev) s in
     playQueue s' = playQueue s ++ [soundFile] ∧
     accepted (trace s') = accepted (trace s) ++ [soundFile] ∧
     received (trace s') = received (trace s)) ∧
  (∀ (s : State) (soundFile : string) (rest : list string),
     exited s = false → player s = AtRange →
     playQueue s = soundFile :: rest →
     let s' := step E APlayer s in
     received (trace s') = received (trace s) ++ [soundFile] ∧
     accepted (trace s') = accepted (trace s) ∧
     playQueue s' = rest) ∧
  (exited st = false → inTurn st →
   (length (playQueue st) + 3 ≤ playQueue_cap)%nat →
   keyFile E evA = Some A → keyFile E evB = Some B →
   keyFile E evC = Some C →
   let st1 := run E [AHook evA; AHook evB; AHook evC] st in
   playQueue st1 = playQueue st ++ [A; B; C] ∧
   accepted (trace st1) = accepted (trace st) ++ [A; B; C] ∧
   received (trace st1) = received (trace st) ∧
   ∃ turns,
     Forall (fun a => a = APlayer ∨ a = ASpeaker) turns ∧
     let st2 := run E turns st1 in
     received (trace st2)
       = received (trace st) ++ playQueue st ++ [A; B; C] ∧
     accepted (trace st2) = accepted (trace st1) ∧
     playQueue st2 = []).
Proof.
  split; [| split; [| split]].
  - apply run_fifo. simpl. rewrite app_nil_r. reflexivity.
  - intros s ev soundFile Hx Hkey Hroom s'.
    destruct (step_key_sends E s ev soundFile Hx Hkey Hroom)
      as (H1 & H2 & H3 & _). auto.
  - intros s soundFile rest Hx Hp Hq s'.
    destruct (step_player_receives E s soundFile rest Hx Hp Hq)
      as (H1 & H2 & H3 & _). auto.
  - intros Hx Hin Hroom HA HB HC st1.
    destruct (step_key_sends E st evA A Hx HA ltac:(lia))
      as (Hq1 & Ha1 & Hr1 & Hx1).
    set (sA := step E (AHook evA) st) in *.
    destruct (step_key_sends E sA evB B Hx1 HB)
      as (Hq2 & Ha2 & Hr2 & Hx2).
    { rewrite Hq1, length_app. simpl. lia. }
    set (sB := step E (AHook evB) sA) in *.
    destruct (step_key_sends E sB evC C Hx2 HC)
      as (Hq3 & Ha3 & Hr3 & Hx3).
    { rewrite Hq2, Hq1, !length_app. simpl. lia. }
    change st1 with (step E (AHook evC) sB).
    set (sC := step E (AHook evC) sB) in *.
    assert (playQueue sC = playQueue st ++ [A; B; C]) as Hq.
    { rewrite Hq3, Hq2, Hq1, <- !app_assoc. reflexivity. }
    assert (accepted (trace sC) = accepted (trace st) ++ [A; B; C]) as Ha.
    { rewrite Ha3, Ha2, Ha1, <- !app_assoc. reflexivity. }
    assert (received (trace sC) = received (trace st)) as Hr
      by (rewrite Hr3, Hr2, Hr1; reflexivity).
    assert (inTurn sC) as HinC.
    { unfold sC, sB, sA. repeat apply step_inTurn. exact Hin. }
    split; [exact Hq |]. split; [exact Ha |]. split; [exact Hr |].
    destruct (consumer_drains E (playQueue sC) sC Hx3 HinC eq_refl)
      as (turns & Hturns & G1 & G2 & G3 & _).
    exists turns. split; [exact Hturns |].
    cbv zeta. rewrite G1, Hr, Hq. auto.
Qed.

Lemma playQueue_fifo_witness :
  let st1 := run Demo.env
               [AHook (Demo.keyDown (rune "A"));
                AHook (Demo.keyDown (rune "b"));
                AHook (Demo.keyDown (rune "c"))]
               (idleState false true ["z.wav"] ∅) in
  playQueue st1 = ["z.wav"; "a.wav"; "b.wav"; "c.wav"] ∧
  ∃ turns,
    Forall (fun a => a = APlayer ∨ a = ASpeaker) turns ∧
    received (trace (run Demo.env turns st1))
      = ["z.wav"; "a.wav"; "b.wav"; "c.wav"] ∧
    playQueue (run Demo.env turns st1) = [].
Proof.
  pose proof (playQueue_fifo Demo.env [] false true [] ∅
                (idleState false true ["z.wav"] ∅)
                (Demo.keyDown (rune "A")) (Demo.keyDown (rune "b"))
                (Demo.keyDown (rune "c")) "a.wav" "b.wav" "c.wav")
    as (_ & _ & _ & H).
  destruct (H ltac:(reflexivity) ltac:(reflexivity)
              ltac:(vm_compute; lia)
              ltac:(vm_compute; reflexivity)
              ltac:(vm_compute; reflexivity)
              ltac:(vm_compute; reflexivity))
    as (H1 & _ & _ & turns & Hturns & H2 & _ & H3).
  split; [exact H1 |].
  exists turns. split; [exact Hturns |]. split; [exact H2 | exact H3].
Defined.

(** The same on the example directory, turn by turn: [z.wav] is missing,
    [a.wav] and [b.wav] have two frames each, [c.wav] is corrupt. *)
Example scenario_fifo :
  let st := run Demo.env
              ([AHook (Demo.keyDown (rune "A"));
                AHook (Demo.keyDown (rune "b"));
                AHook (Demo.keyDown (rune "c"));
                APlayer; APlayer; ASpeaker; ASpeaker; ASpeaker;
                APlayer; ASpeaker; ASpeaker; ASpeaker; APlayer])
              (idleState false true ["z.wav"] ∅) in
  received (trace st) = ["z.wav"; "a.wav"; "b.wav"; "c.wav"] ∧
  fst <$> played (trace st) = ["a.wav"; "b.wav"] ∧
  playQueue st = [].
Proof. vm_compute. auto. Qed.
